(** * Streaming text generation of [LlamaCPPModel] (src/app/models.py)

    A shallow embedding of the UTF-8 byte reassembler, the stop matcher and
    the generation loop of [LlamaCPPModel._generate_text], and the
    properties of the emitted chunk sequence.

    Python values are modelled as follows: [bytes] is a list of bytes, [str]
    is a list of Unicode code points, [int] is [Z], a generator is the list of
    the values it yields.  The [ctransformers.LLM] object is an abstract
    state with the five operations the loop calls. *)

From Stdlib Require Import String Ascii.
From Stdlib.Strings Require Import Byte.
From Stdlib Require Import List ZArith NArith Bool Lia Permutation.
Import ListNotations.

Set Implicit Arguments.

(** ** Python data *)

Definition bytes := list byte.
Definition codepoint := N.
Definition str := list codepoint.

Fixpoint str_eqb (a b : str) : bool :=
  match a, b with
  | [], [] => true
  | x :: a', y :: b' => N.eqb x y && str_eqb a' b'
  | _, _ => false
  end.

(** [text.startswith(p)]: the literal [p] matches at the head of [text]. *)
Fixpoint startswith (text p : str) {struct p} : bool :=
  match p with
  | [] => true
  | c :: p' =>
      match text with
      | [] => false
      | d :: text' => N.eqb c d && startswith text' p'
      end
  end.

(** [text.endswith(suffix)]. *)
Definition endswith (text suffix : str) : bool :=
  (length suffix <=? length text)
  && str_eqb (skipn (length text - length suffix) text) suffix.

(** A code-point string written with ASCII characters. *)
Definition py_str (s : string) : str :=
  map N_of_ascii (list_ascii_of_string s).

(** ** Byte reassembler (lines 79-88) *)

(** [(byte & 0b10000000) != 0] *)
Definition _utf8_is_continuation_byte (b : byte) : bool :=
  negb (N.eqb (N.land (Byte.to_N b) 128) 0).

(** The [while i > 0 and ...: i -= 1] loop, started at [i]. *)
Fixpoint split_index (seq : bytes) (i : nat) : nat :=
  match i with
  | O => O
  | S j => if _utf8_is_continuation_byte (nth j seq x00)
           then split_index seq j
           else i
  end.

Definition _utf8_split_incomplete (seq : bytes) : bytes * bytes :=
  let i := split_index seq (length seq) in
  (firstn i seq, skipn i seq).

(** Lines 123-124 over a whole sequence of detokenized chunks: the complete
    parts in order, and the bytes still pending at the end. *)
Fixpoint reassemble (incomplete : bytes) (chunks : list bytes)
  : list bytes * bytes :=
  match chunks with
  | [] => ([], incomplete)
  | raw :: rest =>
      let '(complete, incomplete') :=
        _utf8_split_incomplete (incomplete ++ raw) in
      let '(completes, final) := reassemble incomplete' rest in
      (complete :: completes, final)
  end.

(** ** Stop matcher (lines 103, 128-148) *)

(** The alternatives of ["|".join(map(re.escape, stops))]; joining no
    string at all gives the empty pattern. *)
Definition stop_regex (stops : list str) : list str :=
  match stops with
  | [] => [[]]
  | _ => stops
  end.

(** [regex.search]: the scan tries every start position from the left and
    stops at the first one where some alternative matches; the result is
    [match.start()]. *)
Fixpoint search_from (alts : list str) (text : str) (pos : nat) : option nat :=
  if existsb (startswith text) alts then Some pos
  else match text with
       | [] => None
       | _ :: rest => search_from alts rest (S pos)
       end.

Definition stop_regex_search (stops : list str) (text : str) : option nat :=
  search_from (stop_regex stops) text 0.

(** The inner [for i in range(len(stop), 0, -1)] loop, started at [i]: the
    first length whose prefix ends the text, if there is one. *)
Fixpoint stop_prefix_scan (text stop : str) (i : nat) : option nat :=
  match i with
  | O => None
  | S j => if endswith text (firstn i stop) then Some i
           else stop_prefix_scan text stop j
  end.

(** The body of the outer [for stop in stops] loop: [longest] after the
    inner loop has run for [stop]. *)
Definition scan_stop (text : str) (longest : nat) (stop : str) : nat :=
  match stop_prefix_scan text stop (length stop) with
  | Some i => Nat.max longest i
  | None => longest
  end.

(** Lines 136-141. *)
Definition longest_stop_prefix (stops : list str) (text : str) : nat :=
  fold_left (scan_stop text) stops 0.

(** ** Generation session (lines 90-157) *)

Inductive finish_reason := Stop | Length.

Definition chunk : Type := str * option finish_reason.

(** The loop variables; [finish_reason] is [None] as long as the loop runs. *)
Record session := mkSession {
  count : Z;
  text : str;
  incomplete : bytes
}.

Definition initial : session :=
  {| count := 0; text := []; incomplete := [] |}.

(** What one pass through the loop body does: it yields zero or one chunk
    and either goes round again or breaks out with the text and the finish
    reason of the final [yield]. *)
Inductive iteration :=
| Next (yielded : list chunk) (st : session)
| Break (yielded : list chunk) (final_text : str) (reason : finish_reason).

(** Truth value of [max_tokens and count >= max_tokens]. *)
Definition budget_reached (max_tokens : option Z) (count : Z) : bool :=
  match max_tokens with
  | None => false
  | Some n => negb (Z.eqb n 0) && Z.geb count n
  end.

(** Lines 143-148: the chunk yielded when [end > 0], and the text kept. *)
Definition emit (text : str) (longest : nat) : list chunk * str :=
  let end_ := (Z.of_nat (length text) - Z.of_nat longest)%Z in
  if (end_ >? 0)%Z
  then ([(firstn (Z.to_nat end_) text, None)], skipn (Z.to_nat end_) text)
  else ([], text).

Section Generator.

(** The runtime the loop calls into: the state of [self.model] with its
    operations, the type of the sampling parameters, and
    [bytes.decode('utf-8', errors='ignore')]. *)
Variables model num : Type.
Variable llm_eval : list Z -> model -> model.
Variable llm_sample : num -> num -> num -> model -> Z * model.
Variable llm_is_eos_token : model -> Z -> bool.
Variable llm_detokenize : model -> list Z -> bytes.
Variable llm_reset : model -> model.
Variable decode : bytes -> str.

Variable stops : list str.
Variables top_p temperature repetition_penalty : num.
Variable max_tokens : option Z.

(** Lines 123-124: the pending bytes with the bytes of the new token,
    split again. *)
Definition pushed (m : model) (token : Z) (st : session) : bytes * bytes :=
  _utf8_split_incomplete (incomplete st ++ llm_detokenize m [token]).

(** Line 126: the text after [text += complete.decode(...)]. *)
Definition appended (m : model) (token : Z) (st : session) : str :=
  text st ++ decode (fst (pushed m token st)).

(** Lines 117-153, for the token just sampled. *)
Definition loop_body (m : model) (token : Z) (st : session) : iteration :=
  if llm_is_eos_token m token then Break [] (text st) Stop
  else
    let '(complete, incomplete') := pushed m token st in
    let text' := text st ++ decode complete in
    match (match stops with
           | [] => None
           | _ => stop_regex_search stops text'
           end) with
    | Some start => Break [] (firstn start text') Stop
    | None =>
        let '(yielded, kept) := emit text' (longest_stop_prefix stops text') in
        let count' := (count st + 1)%Z in
        if budget_reached max_tokens count'
        then Break yielded kept Length
        else Next yielded
               {| count := count'; text := kept; incomplete := incomplete' |}
    end.

(** How far the generator got: still inside the loop, or past the final
    [yield] and [self.model.reset()]. *)
Inductive progress :=
| Running (m : model) (st : session)
| Returned (m : model).

(** The [while True] loop, run for at most [fuel] passes. *)
Fixpoint generate_loop (fuel : nat) (m : model) (st : session)
  : list chunk * progress :=
  match fuel with
  | O => ([], Running m st)
  | S fuel' =>
      let '(token, m1) := llm_sample top_p temperature repetition_penalty m in
      match loop_body m1 token st with
      | Break yielded final_text reason =>
          (yielded ++ [(final_text, Some reason)], Returned (llm_reset m1))
      | Next yielded st' =>
          let '(later, p) := generate_loop fuel' (llm_eval [token] m1) st' in
          (yielded ++ later, p)
      end
  end.

(** The text that line 126 appends to [text] over the passes of the loop,
    in order: nothing for an end-of-sequence token, nothing after the pass
    that breaks out. *)
Fixpoint decoded_text (fuel : nat) (m : model) (st : session) : str :=
  match fuel with
  | O => []
  | S fuel' =>
      let '(token, m1) := llm_sample top_p temperature repetition_penalty m in
      if llm_is_eos_token m1 token then []
      else decode (fst (pushed m1 token st))
           ++ match loop_body m1 token st with
              | Break _ _ _ => []
              | Next _ st' => decoded_text fuel' (llm_eval [token] m1) st'
              end
  end.

(** The text still held in [text] when the generator has not returned. *)
Definition held (p : progress) : str :=
  match p with
  | Running _ st => text st
  | Returned _ => []
  end.

Definition _generate_text (tokens : list Z) (m : model) (fuel : nat)
  : list chunk * progress :=
  generate_loop fuel (llm_eval tokens m) initial.

End Generator.

(** ** A concrete runtime

    [decode_utf8_ignore] follows CPython's UTF-8 decoder with the [ignore]
    error handler: an invalid start byte is skipped, a sequence broken by a
    non-continuation byte loses the bytes read so far, and a sequence cut
    off by the end of the data is dropped. *)

Definition is_continuation (b : N) : bool := N.eqb (N.land b 192) 128.

Definition low6 (b : N) : N := N.land b 63.

Fixpoint decode_utf8_ignore (s : bytes) : str :=
  match s with
  | [] => []
  | b1 :: s1 =>
      let ch := Byte.to_N b1 in
      if (ch <? 128)%N then ch :: decode_utf8_ignore s1
      else if (ch <? 194)%N then decode_utf8_ignore s1
      else if (ch <? 224)%N then
        match s1 with
        | [] => []
        | b2 :: s2 =>
            let ch2 := Byte.to_N b2 in
            if is_continuation ch2
            then N.lor (N.shiftl (N.land ch 31) 6) (low6 ch2)
                   :: decode_utf8_ignore s2
            else decode_utf8_ignore s1
        end
      else if (ch <? 240)%N then
        match s1 with
        | [] => []
        | b2 :: s2 =>
            let ch2 := Byte.to_N b2 in
            if negb (is_continuation ch2)
               || (if (ch2 <? 160)%N then N.eqb ch 224 else N.eqb ch 237)
            then decode_utf8_ignore s1
            else
              match s2 with
              | [] => []
              | b3 :: s3 =>
                  let ch3 := Byte.to_N b3 in
                  if is_continuation ch3
                  then N.lor (N.shiftl (N.land ch 15) 12)
                         (N.lor (N.shiftl (low6 ch2) 6) (low6 ch3))
                         :: decode_utf8_ignore s3
                  else decode_utf8_ignore s2
              end
        end
      else if (ch <? 245)%N then
        match s1 with
        | [] => []
        | b2 :: s2 =>
            let ch2 := Byte.to_N b2 in
            if negb (is_continuation ch2)
               || (if (ch2 <? 144)%N then N.eqb ch 240 else N.eqb ch 244)
            then decode_utf8_ignore s1
            else
              match s2 with
              | [] => []
              | b3 :: s3 =>
                  let ch3 := Byte.to_N b3 in
                  if negb (is_continuation ch3) then decode_utf8_ignore s2
                  else
                    match s3 with
                    | [] => []
                    | b4 :: s4 =>
                        let ch4 := Byte.to_N b4 in
                        if is_continuation ch4
                        then N.lor (N.shiftl (N.land ch 7) 18)
                               (N.lor (N.shiftl (low6 ch2) 12)
                                  (N.lor (N.shiftl (low6 ch3) 6) (low6 ch4)))
                               :: decode_utf8_ignore s4
                        else decode_utf8_ignore s3
                    end
              end
        end
      else decode_utf8_ignore s1
  end.

(** A scripted model: its state is the list of tokens it will sample and
    a table of multi-byte vocabulary entries.  Token [0] is end-of-sequence,
    token [t] in [1..256] detokenizes to the single byte [t - 1], token
    [257 + k] to entry [k] of the table.  Once the script is used up the
    model samples end-of-sequence. *)
Module Scripted.

Record model := mkModel {
  script : list Z;
  merges : list bytes
}.

Definition eval (_ : list Z) (m : model) : model := m.

Definition sample (_ _ _ : unit) (m : model) : Z * model :=
  match script m with
  | [] => (0%Z, m)
  | t :: rest => (t, {| script := rest; merges := merges m |})
  end.

Definition is_eos_token (_ : model) (token : Z) : bool := Z.eqb token 0.

Definition token_bytes (m : model) (token : Z) : bytes :=
  if (token <=? 256)%Z
  then match Byte.of_N (Z.to_N (token - 1)) with
       | Some b => [b]
       | None => []
       end
  else nth (Z.to_nat (token - 257)) (merges m) [].

Definition detokenize (m : model) (tokens : list Z) : bytes :=
  concat (map (token_bytes m) tokens).

Definition reset (m : model) : model :=
  {| script := []; merges := merges m |}.

(** The single-byte tokens of a byte string, and of an ASCII string. *)
Definition tokens_of_bytes (bs : bytes) : list Z :=
  map (fun b => (Z.of_N (Byte.to_N b) + 1)%Z) bs.

Definition tokens_of (s : string) : list Z :=
  tokens_of_bytes (list_byte_of_string s).

Definition body (stops : list str) (max_tokens : option Z) :=
  loop_body is_eos_token detokenize decode_utf8_ignore stops max_tokens.

Definition generate (stops : list str) (max_tokens : option Z)
           (m : model) (fuel : nat) :=
  _generate_text eval sample is_eos_token detokenize reset
    decode_utf8_ignore stops tt tt tt max_tokens [] m fuel.

(** A model that samples the given single-byte tokens. *)
Definition plays (toks : list Z) : model :=
  {| script := toks; merges := [] |}.

(** A model that samples one token for each of the given byte strings. *)
Definition says (words : list bytes) : model :=
  {| script := map (fun k => (257 + Z.of_nat k)%Z) (seq 0 (length words));
     merges := words |}.

(** The two characters U+4E2D U+6587, three bytes each. *)
Definition zhong : bytes := [xe4; xb8; xad].
Definition wen : bytes := [xe6; x96; x87].

End Scripted.

(** ** Vocabulary of the statements *)

(** [stop] occurs in [text] starting at position [pos]. *)
Definition occurs_at (stop : str) (pos : nat) (text : str) : Prop :=
  exists before after,
    text = before ++ stop ++ after /\ length before = pos.

(** [stop in text]. *)
Definition occurs (stop text : str) : Prop :=
  exists pos, occurs_at stop pos text.

(** Some stop string has a prefix of [i >= 1] characters that ends [text]. *)
Definition partial_match (stops : list str) (text : str) (i : nat) : Prop :=
  exists stop, In stop stops /\ 1 <= i <= length stop
               /\ endswith text (firstn i stop) = true.

(** [n] is the longest partial match, [0] when there is none. *)
Definition longest_partial_match (stops : list str) (text : str) (n : nat)
  : Prop :=
  (forall i, partial_match stops text i -> i <= n)
  /\ (n = 0 \/ partial_match stops text n).

(** The invariant of the emission window: no stop string occurs in the
    text decoded so far, and every partial match at its end lies within the
    last [kept] characters, the ones not yet yielded. *)
Definition window_inv (stops : list str) (total : str) (kept : nat) : Prop :=
  (forall s, In s stops -> ~ occurs s total)
  /\ (forall i, partial_match stops total i -> i <= kept).

(** A byte that [_utf8_is_continuation_byte] accepts: its top bit is set. *)
Definition top_bit_set (b : byte) : Prop :=
  _utf8_is_continuation_byte b = true.

(** A byte string that is empty or ends with a byte whose top bit is clear:
    the backward scan stops right at its end. *)
Definition ends_complete (c : bytes) : Prop :=
  c = [] \/ exists c' b, c = c' ++ [b] /\ _utf8_is_continuation_byte b = false.

(** The chunks yielded before the final one carry no finish reason. *)
Definition unfinished (c : chunk) : Prop := snd c = None.

(** The text of all chunks of a run, in the order they were yielded. *)
Definition emitted (chunks : list chunk) : str :=
  concat (map fst chunks).

Unset Implicit Arguments.

(** ** String primitives *)

Lemma str_eqb_eq (a b : str) : str_eqb a b = true <-> a = b.
Proof.
  revert b; induction a as [|x a IH]; intros [|y b]; simpl;
    try (split; [discriminate | congruence]); try tauto.
  rewrite andb_true_iff, N.eqb_eq, IH.
  split; [intros [-> ->]; reflexivity | intros H; inversion H; auto].
Qed.

Lemma startswith_spec (text p : str) :
  startswith text p = true <-> exists after, text = p ++ after.
Proof.
  revert text; induction p as [|c p IH]; intros text; simpl.
  - split; [intros _; exists text; reflexivity | reflexivity].
  - destruct text as [|d text].
    + split; [discriminate | intros [after H]; discriminate].
    + rewrite andb_true_iff, N.eqb_eq, IH. split.
      * intros [-> [after ->]]. exists after. reflexivity.
      * intros [after H]. inversion H; subst. split; [reflexivity | eauto].
Qed.

Lemma endswith_spec (text suffix : str) :
  endswith text suffix = true <-> exists before, text = before ++ suffix.
Proof.
  unfold endswith. rewrite andb_true_iff, Nat.leb_le, str_eqb_eq. split.
  - intros [Hlen Heq].
    exists (firstn (length text - length suffix) text).
    rewrite <- Heq at 2. symmetry. apply firstn_skipn.
  - intros [before ->]. rewrite length_app. split; [lia|].
    replace (length before + length suffix - length suffix)
      with (length before + 0) by lia.
    rewrite skipn_app, Nat.add_0_r, skipn_all, Nat.sub_diag. reflexivity.
Qed.

Lemma endswith_length (text suffix : str) :
  endswith text suffix = true -> length suffix <= length text.
Proof.
  unfold endswith. rewrite andb_true_iff, Nat.leb_le. tauto.
Qed.

(** ** The regular-expression search *)

Lemma existsb_startswith (alts : list str) (text : str) :
  existsb (startswith text) alts = true
  <-> exists s, In s alts /\ occurs_at s 0 text.
Proof.
  rewrite existsb_exists. split; intros [s [Hin H]]; exists s; split; auto.
  - apply startswith_spec in H. destruct H as [after ->].
    exists [], after. auto.
  - destruct H as (before & after & -> & Hlen).
    apply length_zero_iff_nil in Hlen. subst before.
    apply startswith_spec. exists after. reflexivity.
Qed.

Lemma occurs_at_cons (s : str) (c : codepoint) (pos : nat) (text : str) :
  occurs_at s (S pos) (c :: text) <-> occurs_at s pos text.
Proof.
  split.
  - intros (before & after & H & Hlen). destruct before as [|d before];
      [discriminate|]. simpl in *. inversion H; subst.
    exists before, after. auto.
  - intros (before & after & -> & Hlen). exists (c :: before), after.
    simpl. auto.
Qed.

Lemma search_from_some (alts : list str) (text : str) (pos start : nat) :
  search_from alts text pos = Some start ->
  exists k, start = pos + k
            /\ (exists s, In s alts /\ occurs_at s k text)
            /\ (forall s j, In s alts -> occurs_at s j text -> k <= j).
Proof.
  revert pos; induction text as [|c text IH]; intros pos; simpl.
  - destruct (existsb (startswith []) alts) eqn:E; [|discriminate].
    intros [= <-]. exists 0. split; [lia|]. split; [|intros; lia].
    apply existsb_startswith. exact E.
  - destruct (existsb (startswith (c :: text)) alts) eqn:E.
    + intros [= <-]. exists 0. split; [lia|]. split; [|intros; lia].
      apply existsb_startswith. exact E.
    + intros H. apply IH in H. destruct H as (k & -> & (s & Hin & Hocc) & Hmin).
      exists (S k). split; [lia|]. split.
      * exists s. split; [exact Hin|]. apply occurs_at_cons. exact Hocc.
      * intros s' [|j] Hin' Hocc'.
        -- exfalso. assert (X : existsb (startswith (c :: text)) alts = true)
             by (apply existsb_startswith; eauto).
           congruence.
        -- apply occurs_at_cons in Hocc'. apply Hmin in Hocc'; [lia | exact Hin'].
Qed.

Lemma search_from_none (alts : list str) (text : str) (pos : nat) :
  search_from alts text pos = None ->
  forall s, In s alts -> ~ occurs s text.
Proof.
  revert pos; induction text as [|c text IH]; intros pos; simpl.
  - destruct (existsb (startswith []) alts) eqn:E; [discriminate|].
    intros _ s Hin [j Hocc].
    assert (j = 0).
    { destruct Hocc as (before & after & H & <-).
      destruct before; [reflexivity | discriminate]. }
    subst j.
    assert (X : existsb (startswith []) alts = true)
      by (apply existsb_startswith; eauto).
    congruence.
  - destruct (existsb (startswith (c :: text)) alts) eqn:E; [discriminate|].
    intros H s Hin [[|j] Hocc].
    + assert (X : existsb (startswith (c :: text)) alts = true)
        by (apply existsb_startswith; eauto).
      congruence.
    + apply occurs_at_cons in Hocc. eapply IH; eauto. exists j. exact Hocc.
Qed.

Lemma search_from_shift (alts : list str) (text : str) (pos : nat) :
  search_from alts text pos
  = option_map (Nat.add pos) (search_from alts text 0).
Proof.
  revert pos; induction text as [|c text IH]; intros pos; simpl.
  - destruct (existsb _ alts); simpl; [f_equal; lia | reflexivity].
  - destruct (existsb _ alts); simpl; [f_equal; lia|].
    rewrite (IH (S pos)), (IH 1).
    destruct (search_from alts text 0); simpl; [f_equal; lia | reflexivity].
Qed.

Lemma existsb_permutation (f : str -> bool) (l l' : list str) :
  Permutation l l' -> existsb f l = existsb f l'.
Proof.
  intros HP. apply eq_true_iff_eq. rewrite !existsb_exists.
  split; intros [s [Hin H]]; exists s; split; auto.
  - eapply Permutation_in; eauto.
  - eapply Permutation_in; [apply Permutation_sym|]; eauto.
Qed.

Lemma search_from_permutation (l l' : list str) (text : str) (pos : nat) :
  Permutation l l' -> search_from l text pos = search_from l' text pos.
Proof.
  intros HP. revert pos. induction text as [|c text IH]; intros pos; simpl;
    rewrite (existsb_permutation _ _ _ HP); [reflexivity|].
  rewrite IH. reflexivity.
Qed.

Lemma stop_regex_permutation (l l' : list str) :
  Permutation l l' -> Permutation (stop_regex l) (stop_regex l').
Proof.
  intros HP. destruct l as [|s l].
  - apply Permutation_nil in HP. subst. apply Permutation_refl.
  - destruct l' as [|s' l'].
    + apply Permutation_sym, Permutation_nil in HP. discriminate.
    + exact HP.
Qed.

Lemma stop_regex_nonempty (stops : list str) :
  stops <> [] -> stop_regex stops = stops.
Proof. destruct stops; [congruence | reflexivity]. Qed.

(** ** The partial-match scan *)

Lemma stop_prefix_scan_some (text stop : str) (n i : nat) :
  stop_prefix_scan text stop n = Some i ->
  1 <= i <= n
  /\ endswith text (firstn i stop) = true
  /\ (forall j, i < j <= n -> endswith text (firstn j stop) = false).
Proof.
  induction n as [|n IH]; [discriminate|].
  cbn [stop_prefix_scan].
  destruct (endswith text (firstn (S n) stop)) eqn:E.
  - intros [= <-]. split; [lia|]. split; [exact E | intros; lia].
  - intros H. apply IH in H. destruct H as (Hi & He & Hj).
    split; [lia|]. split; [exact He|]. intros j Hr.
    destruct (Nat.eq_dec j (S n)) as [->|]; [exact E | apply Hj; lia].
Qed.

Lemma stop_prefix_scan_none (text stop : str) (n : nat) :
  stop_prefix_scan text stop n = None ->
  forall j, 1 <= j <= n -> endswith text (firstn j stop) = false.
Proof.
  induction n as [|n IH]; [intros; lia|].
  cbn [stop_prefix_scan].
  destruct (endswith text (firstn (S n) stop)) eqn:E; [discriminate|].
  intros H j Hr. destruct (Nat.eq_dec j (S n)) as [->|]; [exact E|].
  apply IH; [exact H | lia].
Qed.

Lemma scan_stop_ge (text : str) (acc : nat) (stop : str) :
  acc <= scan_stop text acc stop.
Proof. unfold scan_stop. destruct (stop_prefix_scan _ _ _); lia. Qed.

Lemma scan_stops_ge (text : str) (stops : list str) (acc : nat) :
  acc <= fold_left (scan_stop text) stops acc.
Proof.
  revert acc; induction stops as [|s stops IH]; intros acc; simpl; [lia|].
  specialize (IH (scan_stop text acc s)).
  pose proof (scan_stop_ge text acc s). lia.
Qed.

Lemma scan_stop_upper (text : str) (acc : nat) (stop : str) (i : nat) :
  1 <= i <= length stop -> endswith text (firstn i stop) = true ->
  i <= scan_stop text acc stop.
Proof.
  intros Hi He. unfold scan_stop.
  destruct (stop_prefix_scan text stop (length stop)) as [k|] eqn:E.
  - apply stop_prefix_scan_some in E. destruct E as (_ & _ & Hj).
    destruct (Nat.le_gt_cases i k) as [|Hlt]; [lia|].
    rewrite Hj in He by lia. discriminate.
  - rewrite (stop_prefix_scan_none _ _ _ E) in He by lia. discriminate.
Qed.

Lemma scan_stops_upper (text : str) (stops : list str) (acc i : nat) :
  partial_match stops text i -> i <= fold_left (scan_stop text) stops acc.
Proof.
  revert acc; induction stops as [|s stops IH]; intros acc
    (stop & Hin & Hi & He); simpl in *; [contradiction|].
  destruct Hin as [->|Hin].
  - pose proof (scan_stop_upper text acc stop i Hi He).
    pose proof (scan_stops_ge text stops (scan_stop text acc stop)). lia.
  - apply IH. exists stop. auto.
Qed.

Lemma scan_stops_attained (text : str) (stops : list str) (acc : nat) :
  fold_left (scan_stop text) stops acc = acc
  \/ partial_match stops text (fold_left (scan_stop text) stops acc).
Proof.
  revert acc; induction stops as [|s stops IH]; intros acc; simpl;
    [left; reflexivity|].
  destruct (IH (scan_stop text acc s)) as [-> | (stop & Hin & Hr)].
  - unfold scan_stop.
    destruct (stop_prefix_scan text s (length s)) as [k|] eqn:E;
      [|left; reflexivity].
    destruct (Nat.max_spec acc k) as [[_ ->] | [_ ->]];
      [|left; reflexivity].
    right. exists s. apply stop_prefix_scan_some in E.
    split; [left; reflexivity | tauto].
  - right. exists stop. split; [right; exact Hin | exact Hr].
Qed.

Lemma longest_stop_prefix_spec (stops : list str) (text : str) :
  longest_partial_match stops text (longest_stop_prefix stops text).
Proof.
  split.
  - intros i H. apply scan_stops_upper. exact H.
  - apply scan_stops_attained.
Qed.

Lemma partial_match_length (stops : list str) (text : str) (i : nat) :
  partial_match stops text i -> i <= length text.
Proof.
  intros (stop & _ & Hi & He). apply endswith_length in He.
  rewrite length_firstn in He. lia.
Qed.

Lemma longest_stop_prefix_length (stops : list str) (text : str) :
  longest_stop_prefix stops text <= length text.
Proof.
  destruct (longest_stop_prefix_spec stops text) as [_ [-> | H]]; [lia|].
  eapply partial_match_length; eauto.
Qed.

Lemma longest_stop_prefix_nil (text : str) : longest_stop_prefix [] text = 0.
Proof. reflexivity. Qed.

(** ** Emission *)

Lemma emit_spec (text : str) (longest : nat) :
  longest <= length text ->
  emitted (fst (emit text longest)) ++ snd (emit text longest) = text
  /\ length (snd (emit text longest)) = longest
  /\ (fst (emit text longest) = []
      \/ fst (emit text longest)
         = [(firstn (length text - longest) text, None)]
         /\ longest < length text).
Proof.
  intros Hle. unfold emit.
  destruct (Z.gtb_spec (Z.of_nat (length text) - Z.of_nat longest) 0) as [H|H];
    cbn [fst snd].
  - replace (Z.to_nat (Z.of_nat (length text) - Z.of_nat longest))
      with (length text - longest) by lia.
    unfold emitted. cbn [map concat fst]. rewrite app_nil_r, firstn_skipn.
    split; [reflexivity|]. rewrite length_skipn. split; [lia|].
    right. split; [reflexivity | lia].
  - unfold emitted. cbn. split; [reflexivity|]. split; [lia | left; reflexivity].
Qed.

Lemma emit_reasons (text : str) (longest : nat) :
  Forall (fun c : chunk => snd c = None) (fst (emit text longest)).
Proof.
  unfold emit. destruct (_ >? 0)%Z; cbn [fst]; repeat constructor.
Qed.

(** ** The split of a byte buffer *)

Lemma split_index_le (seq : bytes) (i : nat) : split_index seq i <= i.
Proof.
  induction i as [|i IH]; [reflexivity|]. cbn [split_index].
  destruct (_utf8_is_continuation_byte _); lia.
Qed.

Lemma split_index_app (l : bytes) (b : byte) (i : nat) :
  i <= length l -> split_index (l ++ [b]) i = split_index l i.
Proof.
  induction i as [|i IH]; intros Hle; [reflexivity|]. cbn [split_index].
  rewrite app_nth1 by lia.
  destruct (_utf8_is_continuation_byte _); [apply IH; lia | reflexivity].
Qed.

(** The split of a buffer with one more byte at its end. *)
Lemma split_snoc (l : bytes) (b : byte) :
  _utf8_split_incomplete (l ++ [b])
  = if _utf8_is_continuation_byte b
    then (fst (_utf8_split_incomplete l), snd (_utf8_split_incomplete l) ++ [b])
    else (l ++ [b], []).
Proof.
  unfold _utf8_split_incomplete. cbn [fst snd].
  rewrite length_app, Nat.add_1_r. cbn [split_index length].
  rewrite app_nth2, Nat.sub_diag by lia. cbn [nth].
  destruct (_utf8_is_continuation_byte b).
  - rewrite split_index_app by lia.
    pose proof (split_index_le l (length l)) as Hk.
    rewrite firstn_app, skipn_app.
    replace (split_index l (length l) - length l) with 0 by lia.
    cbn [firstn skipn]. rewrite app_nil_r. reflexivity.
  - rewrite firstn_all2, skipn_all2 by (rewrite length_app; cbn; lia).
    reflexivity.
Qed.

Lemma split_nil : _utf8_split_incomplete [] = ([], []).
Proof. reflexivity. Qed.

(** X1.  The split cuts the buffer in two without changing it; every byte
    of the pending part has its top bit set, and the complete part is empty
    or ends with a byte whose top bit is clear: the pending part is the
    longest run of top-bit bytes at the end of the buffer. *)
Theorem split_incomplete_spec (seq : bytes) :
  fst (_utf8_split_incomplete seq) ++ snd (_utf8_split_incomplete seq) = seq
  /\ Forall top_bit_set (snd (_utf8_split_incomplete seq))
  /\ ends_complete (fst (_utf8_split_incomplete seq)).
Proof.
  induction seq as [|b l IH] using rev_ind.
  - split; [reflexivity|]. split; [constructor | left; reflexivity].
  - rewrite split_snoc. destruct IH as (Hcat & Hall & Hend).
    destruct (_utf8_is_continuation_byte b) eqn:E; cbn [fst snd].
    + split; [rewrite app_assoc, Hcat; reflexivity|].
      split; [|exact Hend].
      apply Forall_app. split; [exact Hall | repeat constructor; exact E].
    + split; [apply app_nil_r|]. split; [constructor|].
      right. exists l, b. split; [reflexivity | exact E].
Qed.

Lemma split_complete (c : bytes) :
  ends_complete c -> _utf8_split_incomplete c = (c, []).
Proof.
  intros [-> | (c' & b & -> & E)]; [reflexivity|].
  rewrite split_snoc, E. reflexivity.
Qed.

(** After a complete part, the split is the split of what follows. *)
Lemma split_app_complete (c x : bytes) :
  ends_complete c ->
  _utf8_split_incomplete (c ++ x)
  = (c ++ fst (_utf8_split_incomplete x), snd (_utf8_split_incomplete x)).
Proof.
  intros Hc. induction x as [|b x IH] using rev_ind.
  - rewrite app_nil_r, split_nil. cbn [fst snd]. rewrite app_nil_r.
    apply split_complete. exact Hc.
  - rewrite app_assoc, !split_snoc, IH.
    destruct (_utf8_is_continuation_byte b); cbn [fst snd];
      [reflexivity | rewrite app_assoc; reflexivity].
Qed.

(** X2.  Joining a complete part and a pending part and splitting again
    gives the two parts back: a buffer has only one cut with top-bit bytes
    after it and none right before it. *)
Theorem split_incomplete_unique (c p : bytes) :
  ends_complete c ->
  Forall top_bit_set p ->
  _utf8_split_incomplete (c ++ p) = (c, p).
Proof.
  intros Hc Hp. rewrite (split_app_complete c p Hc).
  assert (E : _utf8_split_incomplete p = ([], p)).
  { induction p as [|b p IH] using rev_ind; [reflexivity|].
    apply Forall_app in Hp. destruct Hp as [Hp Hb].
    inversion Hb as [|? ? Eb _]; subst. unfold top_bit_set in Eb.
    rewrite split_snoc, Eb, (IH Hp). reflexivity. }
  rewrite E. cbn [fst snd]. rewrite app_nil_r. reflexivity.
Qed.

(** X11.  The test accepts exactly the bytes from 128 up: the lead bytes
    of multi-byte characters as well as their continuation bytes, and no
    ASCII byte. *)
Theorem continuation_byte_iff (b : byte) :
  _utf8_is_continuation_byte b = true <-> (128 <= Byte.to_N b)%N.
Proof.
  destruct b; vm_compute; split; (reflexivity || discriminate || auto);
    intros H; exfalso; apply H; reflexivity.
Qed.

(** X12.  A buffer that ends with an ASCII byte is complete as a whole:
    nothing stays pending, whatever was pending before. *)
Theorem split_ascii_end (seq : bytes) (b : byte) :
  (Byte.to_N b < 128)%N ->
  _utf8_split_incomplete (seq ++ [b]) = (seq ++ [b], []).
Proof.
  intros Hb. rewrite split_snoc.
  destruct (_utf8_is_continuation_byte b) eqn:E; [|reflexivity].
  apply continuation_byte_iff in E. lia.
Qed.

Lemma reassemble_whole (chunks : list bytes) :
  forall incomplete,
    Forall top_bit_set incomplete ->
    (concat (fst (reassemble incomplete chunks)),
     snd (reassemble incomplete chunks))
    = _utf8_split_incomplete (incomplete ++ concat chunks).
Proof.
  induction chunks as [|raw chunks IH]; intros incomplete Hp.
  - cbn [reassemble concat fst snd]. rewrite app_nil_r. symmetry.
    apply (split_incomplete_unique [] incomplete); [left; reflexivity | exact Hp].
  - cbn [reassemble concat].
    destruct (split_incomplete_spec (incomplete ++ raw)) as (Hcat & Hall & Hend).
    destruct (_utf8_split_incomplete (incomplete ++ raw))
      as [complete incomplete'].
    cbn [fst snd] in *. specialize (IH incomplete' Hall).
    destruct (reassemble incomplete' chunks) as [completes final].
    cbn [fst snd concat] in *.
    rewrite app_assoc, <- Hcat, <- app_assoc.
    rewrite (split_app_complete complete _ Hend), <- IH. reflexivity.
Qed.

(** X3.  The result of the reassembly does not depend on how the byte
    stream is cut into chunks: fed chunk by chunk, the complete parts put
    together and the bytes pending at the end are the two parts of the split
    of the whole stream. *)
Theorem reassembly_chunking_independent (chunks : list bytes) :
  (concat (fst (reassemble [] chunks)), snd (reassemble [] chunks))
  = _utf8_split_incomplete (concat chunks).
Proof. apply (reassemble_whole chunks []). constructor. Qed.

(** ** One pass through the loop body *)

Section Session.

Variables model num : Type.
Variable llm_eval : list Z -> model -> model.
Variable llm_sample : num -> num -> num -> model -> Z * model.
Variable llm_is_eos_token : model -> Z -> bool.
Variable llm_detokenize : model -> list Z -> bytes.
Variable llm_reset : model -> model.
Variable decode : bytes -> str.
Variables top_p temperature repetition_penalty : num.

Abbreviation body := (loop_body llm_is_eos_token llm_detokenize decode).
Abbreviation text_after := (appended llm_detokenize decode).
Abbreviation pending_after m token st :=
  (snd (pushed llm_detokenize m token st)).
Abbreviation sample := (llm_sample top_p temperature repetition_penalty).
Abbreviation loop stops max_tokens := (
  generate_loop llm_eval llm_sample llm_is_eos_token llm_detokenize
    llm_reset decode stops top_p temperature repetition_penalty max_tokens).
Abbreviation generate stops max_tokens := (
  _generate_text llm_eval llm_sample llm_is_eos_token llm_detokenize
    llm_reset decode stops top_p temperature repetition_penalty max_tokens).

Lemma body_eos stops max_tokens m token st :
  llm_is_eos_token m token = true ->
  body stops max_tokens m token st = Break [] (text st) Stop.
Proof. intros H. unfold loop_body. rewrite H. reflexivity. Qed.

Lemma body_stop stops max_tokens m token st start :
  llm_is_eos_token m token = false ->
  stops <> [] ->
  stop_regex_search stops (text_after m token st) = Some start ->
  body stops max_tokens m token st
  = Break [] (firstn start (text_after m token st)) Stop.
Proof.
  intros H Hne Hs. unfold loop_body, appended, pushed in *. rewrite H.
  destruct (_utf8_split_incomplete _) as [complete rest]. cbn [fst] in Hs.
  destruct stops; [congruence|]. rewrite Hs. reflexivity.
Qed.

Lemma body_emit stops max_tokens m token st :
  llm_is_eos_token m token = false ->
  stops = [] \/ stop_regex_search stops (text_after m token st) = None ->
  let e := emit (text_after m token st)
             (longest_stop_prefix stops (text_after m token st)) in
  body stops max_tokens m token st
  = if budget_reached max_tokens (count st + 1)
    then Break (fst e) (snd e) Length
    else Next (fst e) {| count := count st + 1;
                         text := snd e;
                         incomplete := pending_after m token st |}.
Proof.
  intros H Hs. unfold loop_body, appended, pushed in *. rewrite H.
  destruct (_utf8_split_incomplete _) as [complete rest].
  cbn [fst snd] in *.
  assert (E : match stops with
              | [] => None
              | _ :: _ => stop_regex_search stops (text st ++ decode complete)
              end = None).
  { destruct Hs as [-> | Hs]; [reflexivity|]. destruct stops; auto. }
  rewrite E. destruct (emit _ _). reflexivity.
Qed.

Lemma body_cases stops max_tokens m token st :
  (llm_is_eos_token m token = true
   /\ body stops max_tokens m token st = Break [] (text st) Stop)
  \/ (llm_is_eos_token m token = false /\ stops <> []
      /\ exists start,
          stop_regex_search stops (text_after m token st) = Some start
          /\ body stops max_tokens m token st
             = Break [] (firstn start (text_after m token st)) Stop)
  \/ (llm_is_eos_token m token = false
      /\ (stops = []
          \/ stop_regex_search stops (text_after m token st) = None)
      /\ let e := emit (text_after m token st)
                    (longest_stop_prefix stops (text_after m token st)) in
         body stops max_tokens m token st
         = if budget_reached max_tokens (count st + 1)
           then Break (fst e) (snd e) Length
           else Next (fst e) {| count := count st + 1;
                                text := snd e;
                                incomplete := pending_after m token st |}).
Proof.
  destruct (llm_is_eos_token m token) eqn:Heos.
  { left. split; [reflexivity | apply body_eos; exact Heos]. }
  right. destruct stops as [|s0 stops'] eqn:Es.
  { right. split; [reflexivity|]. split; [left; reflexivity|].
    apply body_emit; auto. }
  rewrite <- Es.
  assert (Hne : stops <> []) by (rewrite Es; discriminate).
  destruct (stop_regex_search stops (text_after m token st))
    as [start|] eqn:E.
  - left. split; [reflexivity|]. split; [exact Hne|]. exists start.
    split; [reflexivity | apply body_stop; assumption].
  - right. split; [reflexivity|]. split; [right; reflexivity|].
    apply body_emit; auto.
Qed.

Lemma search_finds stops text' :
  stops <> [] ->
  (exists s, In s stops /\ occurs s text') ->
  exists start, stop_regex_search stops text' = Some start.
Proof.
  intros Hne (s & Hin & Hocc). unfold stop_regex_search.
  rewrite (stop_regex_nonempty _ Hne).
  destruct (search_from stops text' 0) as [start|] eqn:E; [eauto|].
  exfalso. eapply search_from_none; eauto.
Qed.

Lemma search_leftmost stops text' start :
  stops <> [] ->
  stop_regex_search stops text' = Some start ->
  (exists s, In s stops /\ occurs_at s start text')
  /\ (forall s j, In s stops -> occurs_at s j text' -> start <= j).
Proof.
  intros Hne Hs. unfold stop_regex_search in Hs.
  rewrite (stop_regex_nonempty _ Hne) in Hs.
  apply search_from_some in Hs. destruct Hs as (k & -> & H). exact H.
Qed.

Lemma search_misses stops text' :
  stops <> [] ->
  (forall s, In s stops -> ~ occurs s text') ->
  stop_regex_search stops text' = None.
Proof.
  intros Hne Hno.
  destruct (stop_regex_search stops text') as [start|] eqn:E; [|reflexivity].
  destruct (search_leftmost _ _ _ Hne E) as [(s & Hin & Hocc) _].
  exfalso. apply (Hno s Hin). exists start. exact Hocc.
Qed.


Lemma search_permutation stops stops' text' :
  Permutation stops stops' ->
  stop_regex_search stops' text' = stop_regex_search stops text'.
Proof.
  intros HP. unfold stop_regex_search. symmetry.
  apply search_from_permutation, stop_regex_permutation, HP.
Qed.

Lemma loop_step stops max_tokens fuel m0 st token m :
  sample m0 = (token, m) ->
  loop stops max_tokens (S fuel) m0 st
  = match body stops max_tokens m token st with
    | Break yielded final_text reason =>
        (yielded ++ [(final_text, Some reason)], Returned (llm_reset m))
    | Next yielded st' =>
        (yielded ++ fst (loop stops max_tokens fuel (llm_eval [token] m) st'),
         snd (loop stops max_tokens fuel (llm_eval [token] m) st'))
    end.
Proof.
  intros Hs. cbn [generate_loop]. rewrite Hs.
  destruct (loop_body _ _ _ _ _ _ _ _) as [yielded st'|]; [|reflexivity].
  destruct (generate_loop _ _ _ _ _ _ _ _ _ _ _ _ _ _). reflexivity.
Qed.

(** The text ["ab"] against the stop ["abc"]. *)
Lemma longest_abc_ab before :
  longest_stop_prefix [py_str "abc"] (before ++ py_str "ab") = 2.
Proof.
  unfold longest_stop_prefix, scan_stop.
  cbn [fold_left py_str list_ascii_of_string map
    length stop_prefix_scan firstn].
  assert (E3 : endswith (before ++ py_str "ab") (py_str "abc") = false).
  { destruct (endswith _ _) eqn:E; [|reflexivity].
    apply endswith_spec in E. destruct E as [pre E].
    change (py_str "abc") with (py_str "a" ++ py_str "bc") in E.
    change (py_str "ab") with (py_str "a" ++ py_str "b") in E.
    rewrite !app_assoc in E.
    apply (f_equal (@rev codepoint)) in E. rewrite !rev_app_distr in E.
    discriminate. }
  assert (E2 : endswith (before ++ py_str "ab") (py_str "ab") = true).
  { apply endswith_spec. exists before. reflexivity. }
  cbn [py_str list_ascii_of_string map] in E3, E2.
  unfold codepoint in *. rewrite E3, E2. reflexivity.
Qed.

(** *** Full stop matches *)

Lemma body_full_match stops max_tokens m token st :
  llm_is_eos_token m token = false ->
  (exists s, In s stops /\ occurs s (text_after m token st)) ->
  exists start,
    body stops max_tokens m token st
    = Break [] (firstn start (text_after m token st)) Stop
    /\ (exists s, In s stops /\ occurs_at s start (text_after m token st))
    /\ (forall s j, In s stops -> occurs_at s j (text_after m token st) ->
                    start <= j).
Proof.
  intros Heos Hocc.
  assert (Hne : stops <> []) by (destruct Hocc as (s & Hin & _); intros ->; auto).
  destruct (search_finds _ _ Hne Hocc) as [start Hs].
  exists start. split; [apply body_stop; assumption|].
  apply search_leftmost; assumption.
Qed.

(** C4.  When some stop string occurs in the accumulated text, the pass
    yields nothing but breaks out with reason [Stop] and the text before
    the start of the match; the generator then yields that text as its
    only and final chunk of the pass and returns, so nothing from the
    match onwards is emitted.  For the text "hello abc world" and the
    stop "abc" the final chunk is "hello ". *)
Theorem full_match_trimming stops max_tokens m token st :
  llm_is_eos_token m token = false ->
  (exists s, In s stops /\ occurs s (text_after m token st)) ->
  exists start,
    (exists s, In s stops /\ occurs_at s start (text_after m token st))
    /\ body stops max_tokens m token st
       = Break [] (firstn start (text_after m token st)) Stop
    /\ (forall fuel m0,
           sample m0 = (token, m) ->
           loop stops max_tokens (S fuel) m0 st
           = ([(firstn start (text_after m token st), Some Stop)],
               Returned (llm_reset m)))
    /\ (stops = [py_str "abc"] ->
        text_after m token st = py_str "hello abc world" ->
        firstn start (text_after m token st) = py_str "hello ").
Proof.
  intros Heos Hocc.
  destruct (body_full_match stops max_tokens m token st Heos Hocc)
    as (start & Hb & Hat & Hmin).
  exists start. split; [exact Hat|]. split; [exact Hb|]. split.
  - intros fuel m0 Hs. rewrite (loop_step _ _ _ _ _ _ _ Hs), Hb. reflexivity.
  - intros -> Ht. rewrite Ht in *.
    assert (Hs : stop_regex_search [py_str "abc"] (py_str "hello abc world")
                 = Some 6) by reflexivity.
    assert (Hne : [py_str "abc"] <> []) by discriminate.
    destruct (search_leftmost _ _ _ Hne Hs) as [(s & Hin & H6) Hmin6].
    destruct Hat as (s' & Hin' & Hstart).
    assert (start = 6) by (apply Nat.le_antisymm; eauto).
    subst start. reflexivity.
Qed.

(** C10.  When stop strings occur in the accumulated text, the text of
    the final chunk ends at the leftmost start position of any occurrence
    of any stop string, and listing the stop strings in another order
    gives the same final chunk. *)
Theorem leftmost_occurrence_wins stops max_tokens m token st :
  llm_is_eos_token m token = false ->
  (exists s, In s stops /\ occurs s (text_after m token st)) ->
  exists start,
    body stops max_tokens m token st
    = Break [] (firstn start (text_after m token st)) Stop
    /\ (exists s, In s stops /\ occurs_at s start (text_after m token st))
    /\ (forall s j, In s stops -> occurs_at s j (text_after m token st) ->
                    start <= j)
    /\ (forall stops', Permutation stops stops' ->
          body stops' max_tokens m token st
          = Break [] (firstn start (text_after m token st)) Stop).
Proof.
  intros Heos Hocc.
  destruct (body_full_match stops max_tokens m token st Heos Hocc)
    as (start & Hb & Hat & Hmin).
  exists start. repeat (split; [assumption|]).
  intros stops' HP.
  assert (Hne : stops <> [])
    by (destruct Hocc as (s & Hin & _); intros ->; auto).
  apply body_stop; [exact Heos | |].
  - intros ->. apply Permutation_sym, Permutation_nil in HP. auto.
  - rewrite (search_permutation _ _ _ HP).
    destruct (search_finds _ _ Hne Hocc) as [start' Hs].
    rewrite (body_stop _ max_tokens _ _ _ _ Heos Hne Hs) in Hb.
    injection Hb as Hb.
    destruct (search_leftmost _ _ _ Hne Hs) as [(s1 & Hin1 & H1) Hmin1].
    destruct Hat as (s2 & Hin2 & H2).
    assert (start' = start) by (apply Nat.le_antisymm; eauto).
    subst. exact Hs.
Qed.

(** *** Partial stop matches *)

(** C2.  When the stop list is not empty and no stop string occurs in the
    accumulated text, the pass yields the text up to a kept suffix whose
    length is the largest [i] such that the text ends with the first [i]
    characters of some stop string ([0] when there is none).  With the
    stop "abc" and a text ending in "ab", the kept suffix is "ab" and only
    the text before it is yielded. *)
Theorem partial_match_withholding stops max_tokens m token st :
  llm_is_eos_token m token = false ->
  stops <> [] ->
  (forall s, In s stops -> ~ occurs s (text_after m token st)) ->
  exists yielded kept,
    (body stops max_tokens m token st = Break yielded kept Length
     \/ exists st', body stops max_tokens m token st = Next yielded st'
                    /\ text st' = kept)
    /\ emitted yielded ++ kept = text_after m token st
    /\ Forall (fun c : chunk => snd c = None) yielded
    /\ longest_partial_match stops (text_after m token st) (length kept)
    /\ (forall before,
           stops = [py_str "abc"] ->
           text_after m token st = before ++ py_str "ab" ->
           kept = py_str "ab" /\ emitted yielded = before).
Proof.
  intros Heos Hne Hno.
  pose proof (body_emit stops max_tokens m token st Heos
                (or_intror (search_misses _ _ Hne Hno))) as Hb.
  cbv zeta in Hb.
  pose proof (longest_stop_prefix_length stops (text_after m token st)) as Hle.
  destruct (emit_spec _ _ Hle) as (Hcat & Hlen & _).
  pose proof (emit_reasons (text_after m token st)
                (longest_stop_prefix stops (text_after m token st))) as Hr.
  set (e := emit (text_after m token st)
              (longest_stop_prefix stops (text_after m token st))) in *.
  exists (fst e), (snd e). split.
  { destruct (budget_reached max_tokens (count st + 1));
      [left; exact Hb | right; eexists; split; [exact Hb | reflexivity]]. }
  split; [exact Hcat|]. split; [exact Hr|]. split.
  { rewrite Hlen. apply longest_stop_prefix_spec. }
  intros before -> Ht. rewrite Ht in *.
  rewrite longest_abc_ab in Hlen.
  assert (Hk : snd e = py_str "ab").
  { apply (f_equal (@rev codepoint)) in Hcat.
    rewrite !rev_app_distr in Hcat.
    destruct (rev (snd e)) as [|c1 [|c2 [|c3 r]]] eqn:Er;
      try (apply (f_equal (@length codepoint)) in Er;
           rewrite length_rev, Hlen in Er; simpl in Er; lia).
    simpl in Hcat. injection Hcat as H1 H2 _.
    rewrite <- (rev_involutive (snd e)), Er. subst. reflexivity. }
  split; [exact Hk|]. rewrite Hk in Hcat.
  apply app_inv_tail in Hcat. exact Hcat.
Qed.

(** *** The chunk sequence *)

Lemma body_yields_unfinished stops max_tokens m token st :
  match body stops max_tokens m token st with
  | Next yielded _ | Break yielded _ _ => Forall unfinished yielded
  end.
Proof.
  destruct (body_cases stops max_tokens m token st)
    as [[_ ->] | [(_ & _ & start & _ & ->) | (_ & _ & H)]];
    try constructor.
  cbv zeta in H. rewrite H.
  destruct (budget_reached _ _); apply emit_reasons.
Qed.

Lemma loop_structure stops max_tokens fuel :
  forall m st,
    match loop stops max_tokens fuel m st with
    | (chunks, Returned _) =>
        exists init final_text reason,
          chunks = init ++ [(final_text, Some reason)]
          /\ Forall unfinished init
    | (chunks, Running _ _) => Forall unfinished chunks
    end.
Proof.
  induction fuel as [|fuel IH]; intros m st; [constructor|].
  destruct (sample m) as [token m1] eqn:Hs.
  rewrite (loop_step _ _ _ _ _ _ _ Hs).
  pose proof (body_yields_unfinished stops max_tokens m1 token st) as Hy.
  destruct (body stops max_tokens m1 token st) as [yielded st'|yielded t r].
  - specialize (IH (llm_eval [token] m1) st').
    destruct (loop stops max_tokens fuel (llm_eval [token] m1) st')
      as [later [m' st''|m']]; cbn [fst snd].
    + apply Forall_app; split; assumption.
    + destruct IH as (init & t & r & -> & Hinit).
      exists (yielded ++ init), t, r. rewrite app_assoc.
      split; [reflexivity | apply Forall_app; split; assumption].
  - exists yielded, t, r. split; [reflexivity | exact Hy].
Qed.

Lemma loop_returned_stable stops max_tokens fuel :
  forall m st chunks m',
    loop stops max_tokens fuel m st = (chunks, Returned m') ->
    forall fuel', fuel <= fuel' ->
      loop stops max_tokens fuel' m st = (chunks, Returned m').
Proof.
  induction fuel as [|fuel IH]; intros m st chunks m' H fuel' Hle;
    [discriminate|].
  destruct fuel' as [|fuel']; [lia|].
  destruct (sample m) as [token m1] eqn:Hs.
  rewrite (loop_step _ _ fuel _ _ _ _ Hs) in H.
  rewrite (loop_step _ _ fuel' _ _ _ _ Hs).
  destruct (body stops max_tokens m1 token st) as [yielded st'|yielded t r];
    [|exact H].
  destruct (loop stops max_tokens fuel (llm_eval [token] m1) st')
    as [later p] eqn:E.
  cbn [fst snd] in H. injection H as <- ->.
  rewrite (IH _ _ _ _ E fuel') by lia. reflexivity.
Qed.

(** C7.  When the generator returns, the chunks it yielded are a run of
    chunks with finish reason [None] followed by one last chunk with a
    finish reason, [Stop] or [Length]; running it further changes
    nothing. *)
Theorem finish_reason_structure stops max_tokens tokens m fuel chunks m' :
  generate stops max_tokens tokens m fuel = (chunks, Returned m') ->
  (exists init final_text reason,
      chunks = init ++ [(final_text, Some reason)]
      /\ Forall (fun c : chunk => snd c = None) init
      /\ (reason = Stop \/ reason = Length))
  /\ (forall fuel', fuel <= fuel' ->
        generate stops max_tokens tokens m fuel' = (chunks, Returned m')).
Proof.
  unfold _generate_text. intros H. split.
  - pose proof (loop_structure stops max_tokens fuel (llm_eval tokens m)
                  initial) as Hst.
    rewrite H in Hst. destruct Hst as (init & t & r & -> & Hinit).
    exists init, t, r. split; [reflexivity|]. split; [exact Hinit|].
    destruct r; auto.
  - apply loop_returned_stable. exact H.
Qed.

(** C8.  When the first sampled token is end-of-sequence, the generator
    yields exactly one chunk, the empty text with reason [Stop], and
    returns. *)
Theorem immediate_end_of_sequence stops max_tokens tokens m fuel token m1 :
  sample (llm_eval tokens m) = (token, m1) ->
  llm_is_eos_token m1 token = true ->
  generate stops max_tokens tokens m (S fuel)
  = ([([], Some Stop)], Returned (llm_reset m1)).
Proof.
  intros Hs Heos. unfold _generate_text.
  rewrite (loop_step _ _ _ _ _ _ _ Hs), (body_eos _ _ _ _ _ Heos).
  reflexivity.
Qed.

(** *** The token budget *)

Lemma loop_no_length stops max_tokens fuel :
  max_tokens = None \/ max_tokens = Some 0%Z ->
  forall m st,
    Forall (fun c : chunk => snd c <> Some Length)
      (fst (loop stops max_tokens fuel m st)).
Proof.
  intros Hmt.
  assert (Hb : forall c, budget_reached max_tokens c = false)
    by (intros c; destruct Hmt as [-> | ->]; reflexivity).
  induction fuel as [|fuel IH]; intros m st; [constructor|].
  destruct (sample m) as [token m1] eqn:Hs.
  rewrite (loop_step _ _ _ _ _ _ _ Hs).
  destruct (body_cases stops max_tokens m1 token st)
    as [[_ ->] | [(_ & _ & start & _ & ->) | (_ & _ & H)]];
    cbn [fst app]; try (repeat constructor; discriminate).
  cbv zeta in H. rewrite H, Hb. cbn [fst]. apply Forall_app. split.
  - eapply Forall_impl; [|apply emit_reasons].
    intros c Hc. cbv beta in Hc. congruence.
  - apply IH.
Qed.

(** C5 (amended).  When [max_tokens] is [None] or [0], no chunk of the
    run carries the finish reason [Length]; a run that returns ends with
    reason [Stop]. *)
Theorem unbounded_token_budget stops max_tokens tokens m fuel :
  max_tokens = None \/ max_tokens = Some 0%Z ->
  Forall (fun c : chunk => snd c <> Some Length)
    (fst (generate stops max_tokens tokens m fuel))
  /\ (forall m', snd (generate stops max_tokens tokens m fuel) = Returned m' ->
        exists init final_text,
          fst (generate stops max_tokens tokens m fuel)
          = init ++ [(final_text, Some Stop)]).
Proof.
  intros Hmt.
  pose proof (loop_no_length stops max_tokens fuel Hmt (llm_eval tokens m)
                initial) as Hno.
  split; [exact Hno|]. unfold _generate_text in *. intros m' Hr.
  pose proof (loop_structure stops max_tokens fuel (llm_eval tokens m)
                initial) as Hst.
  destruct (loop stops max_tokens fuel (llm_eval tokens m) initial)
    as [chunks p]. cbn [fst snd] in *. subst p.
  destruct Hst as (init & t & r & -> & _). exists init, t.
  destruct r; [reflexivity|].
  apply Forall_app in Hno. destruct Hno as [_ Hno].
  inversion Hno; subst. cbn in *. congruence.
Qed.

(** *** The empty stop list *)

Lemma emit_zero (t : str) :
  emit t 0 = (match t with [] => [] | _ => [(t, None)] end, []).
Proof.
  unfold emit. destruct t as [|c t]; [reflexivity|].
  rewrite Z.sub_0_r.
  destruct (Z.gtb_spec (Z.of_nat (length (c :: t))) 0) as [_|H];
    [|cbn [length] in H; lia].
  rewrite Nat2Z.id, firstn_all, skipn_all. reflexivity.
Qed.

Lemma loop_empty_stops_text max_tokens fuel :
  forall m st mk stk,
    text st = [] ->
    snd (loop [] max_tokens fuel m st) = Running mk stk ->
    text stk = [].
Proof.
  induction fuel as [|fuel IH]; intros m st mk stk Ht H.
  - cbn in H. injection H as _ <-. exact Ht.
  - destruct (sample m) as [token m1] eqn:Hs.
    rewrite (loop_step _ _ _ _ _ _ _ Hs) in H.
    destruct (body_cases [] max_tokens m1 token st)
      as [[_ Hb] | [(_ & Hne & _) | (_ & _ & Hb)]];
      [rewrite Hb in H; discriminate | congruence |].
    cbv zeta in Hb. rewrite Hb in H. cbn [longest_stop_prefix fold_left] in H.
    rewrite emit_zero in H. cbn [fst snd] in H.
    destruct (budget_reached _ _); [discriminate|].
    cbn [snd] in H. eapply IH; [|exact H]. reflexivity.
Qed.

(** C9.  With the empty stop list, at every pass that samples a token
    other than end-of-sequence the text buffer was empty before, the whole
    decoded text of the pass is yielded (as one chunk, when it is not
    empty) and nothing is kept; the pass goes round again or breaks out on
    the token budget, never with reason [Stop]. *)
Theorem empty_stop_set_identity max_tokens tokens m n mk st token m1 :
  snd (generate [] max_tokens tokens m n) = Running mk st ->
  sample mk = (token, m1) ->
  llm_is_eos_token m1 token = false ->
  text st = []
  /\ text_after m1 token st = decode (fst (pushed llm_detokenize m1 token st))
  /\ exists yielded,
      yielded = match text_after m1 token st with
                | [] => []
                | _ => [(text_after m1 token st, None)]
                end
      /\ emitted yielded = text_after m1 token st
      /\ (body [] max_tokens m1 token st
          = Next yielded {| count := count st + 1;
                            text := [];
                            incomplete := pending_after m1 token st |}
          \/ body [] max_tokens m1 token st = Break yielded [] Length
             /\ budget_reached max_tokens (count st + 1) = true).
Proof.
  intros Hrun Hs Heos. unfold _generate_text in Hrun.
  pose proof (loop_empty_stops_text max_tokens n _ initial _ _ eq_refl Hrun)
    as Ht.
  split; [exact Ht|]. split; [unfold appended; rewrite Ht; reflexivity|].
  eexists. split; [reflexivity|]. split.
  - destruct (text_after m1 token st); unfold emitted; cbn;
      [|rewrite app_nil_r]; reflexivity.
  - pose proof (body_emit [] max_tokens m1 token st Heos
                  (or_introl eq_refl)) as Hb.
    cbv zeta in Hb. cbn [longest_stop_prefix fold_left] in Hb.
    rewrite emit_zero in Hb. cbn [fst snd] in Hb.
    destruct (budget_reached max_tokens (count st + 1));
      [right; split; [exact Hb | reflexivity] | left; exact Hb].
Qed.

(** *** Stop strings never reach the caller *)

Lemma emitted_app (a b : list chunk) :
  emitted (a ++ b) = emitted a ++ emitted b.
Proof. unfold emitted. rewrite map_app, concat_app. reflexivity. Qed.

Lemma firstn_length_app (a b : str) : firstn (length a) (a ++ b) = a.
Proof.
  rewrite firstn_app, Nat.sub_diag, firstn_all, firstn_O, app_nil_r.
  reflexivity.
Qed.

Lemma skipn_length_app (a b : str) : skipn (length a) (a ++ b) = b.
Proof.
  rewrite skipn_app, Nat.sub_diag, skipn_all. reflexivity.
Qed.

Lemma occurs_at_inside (s before after total extra : str) :
  before ++ s ++ after = total ++ extra ->
  length before + length s <= length total ->
  occurs_at s (length before) total.
Proof.
  intros H Hlen.
  exists before, (firstn (length total - length before - length s) after).
  split; [|reflexivity].
  apply (f_equal (firstn (length total))) in H.
  rewrite firstn_length_app, !firstn_app in H.
  rewrite (firstn_all2 before), (firstn_all2 s) in H by lia.
  symmetry. exact H.
Qed.

Lemma occurs_at_straddle (s before after total extra : str) :
  before ++ s ++ after = total ++ extra ->
  length before <= length total <= length before + length s ->
  total = before ++ firstn (length total - length before) s.
Proof.
  intros H Hlen.
  apply (f_equal (firstn (length total))) in H.
  rewrite firstn_length_app, !firstn_app in H.
  rewrite (firstn_all2 before) in H by lia.
  replace (length total - length before - length s) with 0 in H by lia.
  rewrite firstn_O, app_nil_r in H. symmetry. exact H.
Qed.

Lemma occurs_at_beyond (s before after shown rest : str) :
  before ++ s ++ after = shown ++ rest ->
  length shown <= length before ->
  occurs_at s (length before - length shown) rest.
Proof.
  intros H Hlen.
  exists (skipn (length shown) before), after. split.
  - apply (f_equal (skipn (length shown))) in H.
    rewrite skipn_length_app, skipn_app in H.
    replace (length shown - length before) with 0 in H by lia.
    symmetry. exact H.
  - rewrite length_skipn. reflexivity.
Qed.

(** An occurrence of a stop string in the whole decoded text starts
    inside the current window. *)
Lemma occurrence_in_window stops shown kept new s before after :
  window_inv stops (shown ++ kept) (length kept) ->
  In s stops ->
  before ++ s ++ after = shown ++ kept ++ new ->
  length shown <= length before.
Proof.
  intros [Hno Hpart] Hin H. rewrite (app_assoc shown) in H.
  destruct (Nat.le_gt_cases (length shown) (length before)) as [|Hlt];
    [assumption|exfalso].
  destruct (Nat.le_gt_cases (length before + length s)
              (length (shown ++ kept))) as [Hfit|Hover].
  - apply (Hno s Hin). exists (length before).
    eapply occurs_at_inside; eauto.
  - rewrite length_app in Hover.
    assert (Hr : length before <= length (shown ++ kept)
                 <= length before + length s)
      by (rewrite length_app; lia).
    pose proof (occurs_at_straddle _ _ _ _ _ H Hr) as Hst.
    rewrite length_app in Hst.
    assert (Hpm : partial_match stops (shown ++ kept)
                    (length shown + length kept - length before)).
    { exists s. split; [exact Hin|]. split; [lia|].
      apply endswith_spec. exists before. exact Hst. }
    apply Hpart in Hpm. lia.
Qed.

Lemma window_step stops shown kept new :
  window_inv stops (shown ++ kept) (length kept) ->
  (forall s, In s stops -> ~ occurs s (kept ++ new)) ->
  window_inv stops (shown ++ kept ++ new)
    (longest_stop_prefix stops (kept ++ new)).
Proof.
  intros Hinv Hno. split.
  - intros s Hin (pos & before & after & H & <-).
    symmetry in H.
    pose proof (occurrence_in_window _ _ _ _ _ _ _ Hinv Hin H) as Hle.
    apply (Hno s Hin). exists (length before - length shown).
    eapply occurs_at_beyond; eauto.
  - intros i (s & Hin & Hi & He).
    apply (proj1 (longest_stop_prefix_spec stops (kept ++ new))).
    apply endswith_spec in He. destruct He as [before He].
    assert (Hlen : length shown + length kept + length new
                   = length before + i).
    { apply (f_equal (@length codepoint)) in He.
      rewrite !length_app, length_firstn in He. lia. }
    exists s. split; [exact Hin|]. split; [exact Hi|].
    apply endswith_spec.
    destruct (Nat.le_gt_cases (length shown) (length before)) as [Hle|Hlt].
    + exists (skipn (length shown) before).
      apply (f_equal (skipn (length shown))) in He.
      rewrite skipn_length_app, skipn_app in He.
      replace (length shown - length before) with 0 in He by lia.
      exact He.
    + exfalso. destruct Hinv as [_ Hpart].
      assert (Hpm : partial_match stops (shown ++ kept) (i - length new)).
      { exists s. split; [exact Hin|]. split; [lia|].
        apply endswith_spec. exists before.
        rewrite (app_assoc shown) in He.
        apply (f_equal (firstn (length (shown ++ kept)))) in He.
        rewrite firstn_length_app, firstn_app, firstn_firstn in He.
        rewrite (firstn_all2 before) in He by (rewrite length_app; lia).
        rewrite He at 1. f_equal. f_equal. rewrite length_app. lia. }
      apply Hpart in Hpm. lia.
Qed.

Lemma window_prefix stops shown kept s :
  window_inv stops (shown ++ kept) (length kept) ->
  In s stops -> ~ occurs s shown.
Proof.
  intros [Hno _] Hin (pos & before & after & -> & _).
  apply (Hno s Hin). exists (length before), before, (after ++ kept).
  rewrite <- !app_assoc. auto.
Qed.

Lemma window_initial stops :
  Forall (fun s : str => s <> []) stops -> window_inv stops ([] ++ []) 0.
Proof.
  intros Hne. split.
  - intros s Hin (pos & before & after & H & _).
    rewrite Forall_forall in Hne. apply (Hne s Hin).
    destruct before; [|discriminate]. destruct s; [reflexivity|discriminate].
  - intros i H. apply partial_match_length in H. exact H.
Qed.

Lemma loop_no_leak stops max_tokens fuel :
  Forall (fun s : str => s <> []) stops ->
  forall m st shown,
    window_inv stops (shown ++ text st) (length (text st)) ->
    forall s, In s stops ->
      ~ occurs s (shown ++ emitted (fst (loop stops max_tokens fuel m st))).
Proof.
  intros Hne. induction fuel as [|fuel IH]; intros m st shown Hinv s Hin.
  { cbn [generate_loop fst]. unfold emitted. cbn [map concat].
    rewrite app_nil_r. eapply window_prefix; eauto. }
  destruct (sample m) as [token m1] eqn:Hs.
  rewrite (loop_step _ _ _ _ _ _ _ Hs).
  destruct (body_cases stops max_tokens m1 token st)
    as [[_ ->] | [(_ & Hnn & start & Hsearch & ->) | (_ & Hnone & Hb)]];
    cbn [fst app].
  - (* end of sequence: the kept text is flushed *)
    unfold emitted. cbn [map concat fst]. rewrite app_nil_r.
    apply (proj1 Hinv). exact Hin.
  - (* full match: the text before the leftmost occurrence *)
    unfold emitted. cbn [map concat fst]. rewrite app_nil_r.
    unfold appended in *.
    set (new := decode (fst (pushed llm_detokenize m1 token st))) in *.
    intros (pos & before & after & H & _).
    destruct (search_leftmost _ _ _ Hnn Hsearch) as [_ Hmin].
    assert (Hfull : before ++ s ++ (after ++ skipn start (text st ++ new))
                    = shown ++ text st ++ new).
    { rewrite <- (firstn_skipn start (text st ++ new)) at 2.
      rewrite (app_assoc shown), H, <- !app_assoc. reflexivity. }
    pose proof (occurrence_in_window _ _ _ _ _ _ _ Hinv Hin Hfull) as Hle.
    pose proof (occurs_at_beyond _ _ _ _ _ Hfull Hle) as Hocc.
    apply (Hmin s _ Hin) in Hocc.
    apply (f_equal (@length codepoint)) in H.
    rewrite !length_app in H.
    pose proof (firstn_le_length start (text st ++ new)).
    rewrite Forall_forall in Hne. specialize (Hne s Hin).
    destruct s; [congruence|]. cbn [length] in H. lia.
  - (* no match: part of the text is yielded, the rest kept *)
    cbv zeta in Hb.
    assert (Hno : forall s', In s' stops ->
                             ~ occurs s' (text_after m1 token st)).
    { destruct Hnone as [-> | Hnone]; [intros s' []|].
      destruct stops as [|s0 stops'] eqn:Es; [intros s' []|].
      rewrite <- Es in *. unfold stop_regex_search in Hnone.
      rewrite stop_regex_nonempty in Hnone by (rewrite Es; discriminate).
      eapply search_from_none; eauto. }
    pose proof (window_step _ _ _ _ Hinv Hno) as Hinv'.
    pose proof (longest_stop_prefix_length stops (text_after m1 token st))
      as Hlen.
    destruct (emit_spec _ _ Hlen) as (Hcat & Hkept & _).
    fold (appended llm_detokenize decode m1 token st) in Hinv'.
    set (e := emit (text_after m1 token st)
                (longest_stop_prefix stops (text_after m1 token st))) in *.
    rewrite <- Hkept, <- Hcat, app_assoc in Hinv'.
    rewrite Hb. destruct (budget_reached max_tokens (count st + 1)).
    + cbn [fst snd]. rewrite emitted_app. unfold emitted at 2.
      cbn [map concat fst].
      rewrite app_nil_r, app_assoc. apply (proj1 Hinv'). exact Hin.
    + cbn [fst snd]. rewrite emitted_app, app_assoc.
      apply IH; [exact Hinv' | exact Hin].
Qed.

(** C1 (amended).  When no stop string is empty, the text of all chunks
    yielded by a run, the final chunk included, contains no stop string;
    this holds for the chunks of every unfinished run as well. *)
Theorem no_stop_leakage stops max_tokens tokens m fuel :
  Forall (fun s : str => s <> []) stops ->
  forall s, In s stops ->
    ~ occurs s (emitted (fst (generate stops max_tokens tokens m fuel))).
Proof.
  intros Hne s Hin. unfold _generate_text.
  apply (loop_no_leak stops max_tokens fuel Hne (llm_eval tokens m) initial
           [] (window_initial stops Hne) s Hin).
Qed.

(** *** Invariants of the loop variables *)

Lemma loop_running stops max_tokens fuel :
  forall m st mk stk,
    Forall top_bit_set (incomplete st) ->
    snd (loop stops max_tokens fuel m st) = Running mk stk ->
    Forall top_bit_set (incomplete stk)
    /\ count stk = (count st + Z.of_nat fuel)%Z.
Proof.
  induction fuel as [|fuel IH]; intros m st mk stk Hp H.
  - cbn in H. injection H as _ <-. split; [exact Hp | lia].
  - destruct (sample m) as [token m1] eqn:Hs.
    rewrite (loop_step _ _ _ _ _ _ _ Hs) in H.
    destruct (body_cases stops max_tokens m1 token st)
      as [[_ Hb] | [(_ & _ & start & _ & Hb) | (_ & _ & Hb)]];
      try (rewrite Hb in H; discriminate).
    cbv zeta in Hb. rewrite Hb in H.
    destruct (budget_reached _ _); [discriminate|]. cbn [snd] in H.
    apply IH in H.
    + cbn [count] in H. destruct H as [H1 H2]. split; [exact H1 | lia].
    + cbn [incomplete]. unfold pushed. apply split_incomplete_spec.
Qed.

(** X4.  At the head of the loop after [n] passes, the counter is [n] and
    every pending byte has its top bit set. *)
Theorem session_counters stops max_tokens tokens m n mk st :
  snd (generate stops max_tokens tokens m n) = Running mk st ->
  count st = Z.of_nat n /\ Forall top_bit_set (incomplete st).
Proof.
  unfold _generate_text. intros H.
  apply loop_running in H; [|constructor].
  cbn [count initial] in H. destruct H as [H1 H2]. split; [lia | exact H1].
Qed.

(** *** Runs with a token budget *)

Lemma emit_at_most_one (t : str) (longest : nat) :
  length (fst (emit t longest)) <= 1.
Proof. unfold emit. destruct (_ >? 0)%Z; cbn; lia. Qed.

Lemma loop_chunks_le stops max_tokens fuel :
  forall m st, length (fst (loop stops max_tokens fuel m st)) <= S fuel.
Proof.
  induction fuel as [|fuel IH]; intros m st; [cbn; lia|].
  destruct (sample m) as [token m1] eqn:Hs.
  rewrite (loop_step _ _ _ _ _ _ _ Hs).
  destruct (body_cases stops max_tokens m1 token st)
    as [[_ ->] | [(_ & _ & start & _ & ->) | (_ & _ & Hb)]];
    try (cbn; lia).
  cbv zeta in Hb. rewrite Hb.
  pose proof (emit_at_most_one (text_after m1 token st)
                (longest_stop_prefix stops (text_after m1 token st))) as He.
  destruct (budget_reached _ _); cbn [fst]; rewrite length_app.
  - cbn [length]. lia.
  - match goal with |- context [loop _ _ fuel ?m' ?s'] =>
      specialize (IH m' s') end. lia.
Qed.

Lemma loop_budget stops b fuel :
  b <> 0%Z ->
  forall m st,
    (count st < b)%Z ->
    (b <= count st + Z.of_nat fuel)%Z ->
    exists chunks m', loop stops (Some b) fuel m st = (chunks, Returned m').
Proof.
  intros Hb. induction fuel as [|fuel IH]; intros m st Hlt Hle; [lia|].
  destruct (sample m) as [token m1] eqn:Hs.
  rewrite (loop_step _ _ _ _ _ _ _ Hs).
  destruct (body_cases stops (Some b) m1 token st)
    as [[_ ->] | [(_ & _ & start & _ & ->) | (_ & _ & H)]];
    try (eexists; eexists; reflexivity).
  cbv zeta in H. rewrite H.
  destruct (budget_reached (Some b) (count st + 1)) eqn:E;
    [eexists; eexists; reflexivity|].
  unfold budget_reached in E. apply andb_false_iff in E.
  assert (Hc : (count st + 1 < b)%Z).
  { destruct E as [E | E].
    - apply negb_false_iff, Z.eqb_eq in E. congruence.
    - rewrite Z.geb_leb in E. apply Z.leb_gt in E. exact E. }
  match goal with |- context [loop _ _ fuel ?m' ?s'] =>
    destruct (IH m' s') as (chunks & m'' & Hr) end;
    [cbn [count]; lia | cbn [count]; lia |].
  rewrite Hr. eexists; eexists; reflexivity.
Qed.

(** X5.  With a positive [max_tokens] the generator returns within
    [max_tokens] passes, whatever the model samples, and has then yielded
    at most [max_tokens + 1] chunks. *)
Theorem positive_budget_terminates stops b tokens m :
  (0 < b)%Z ->
  exists chunks m',
    generate stops (Some b) tokens m (Z.to_nat b) = (chunks, Returned m')
    /\ length chunks <= Z.to_nat b + 1.
Proof.
  intros Hb. unfold _generate_text.
  destruct (loop_budget stops b (Z.to_nat b) ltac:(lia) (llm_eval tokens m)
              initial) as (chunks & m' & H); [cbn; lia | cbn; lia |].
  exists chunks, m'. split; [exact H|].
  pose proof (loop_chunks_le stops (Some b) (Z.to_nat b) (llm_eval tokens m)
                initial) as Hl.
  rewrite H in Hl. cbn [fst] in Hl. lia.
Qed.

(** X6.  With a negative [max_tokens] the generator returns after the
    first pass. *)
Theorem negative_budget_single_pass stops b tokens m :
  (b < 0)%Z ->
  exists chunks m',
    generate stops (Some b) tokens m 1 = (chunks, Returned m').
Proof.
  intros Hb. unfold _generate_text.
  destruct (sample (llm_eval tokens m)) as [token m1] eqn:Hs.
  rewrite (loop_step _ _ _ _ _ _ _ Hs).
  destruct (body_cases stops (Some b) m1 token initial)
    as [[_ ->] | [(_ & _ & start & _ & ->) | (_ & _ & H)]];
    try (eexists; eexists; reflexivity).
  cbv zeta in H. rewrite H.
  assert (E : budget_reached (Some b) (count initial + 1) = true).
  { unfold budget_reached. apply andb_true_iff. split.
    - apply negb_true_iff, Z.eqb_neq. lia.
    - rewrite Z.geb_leb. apply Z.leb_le. cbn. lia. }
  rewrite E. eexists; eexists; reflexivity.
Qed.

(** *** What becomes of the decoded text *)

Abbreviation decoded stops max_tokens := (
  decoded_text llm_eval llm_sample llm_is_eos_token llm_detokenize decode
    stops top_p temperature repetition_penalty max_tokens).

Lemma decoded_step stops max_tokens fuel m0 st token m :
  sample m0 = (token, m) ->
  decoded stops max_tokens (S fuel) m0 st
  = if llm_is_eos_token m token then []
    else decode (fst (pushed llm_detokenize m token st))
         ++ match body stops max_tokens m token st with
            | Break _ _ _ => []
            | Next _ st' => decoded stops max_tokens fuel (llm_eval [token] m) st'
            end.
Proof. intros Hs. cbn [decoded_text]. rewrite Hs. reflexivity. Qed.

Lemma no_match_no_occurrence stops t :
  stops = [] \/ stop_regex_search stops t = None ->
  forall s, In s stops -> ~ occurs s t.
Proof.
  intros [-> | Hnone] s Hin; [destruct Hin|].
  assert (Hne : stops <> []) by (intros ->; destruct Hin).
  unfold stop_regex_search in Hnone.
  rewrite (stop_regex_nonempty _ Hne) in Hnone.
  eapply search_from_none; eauto.
Qed.

Lemma loop_conserves stops max_tokens fuel :
  forall m st,
    exists dropped,
      text st ++ decoded stops max_tokens fuel m st
      = emitted (fst (loop stops max_tokens fuel m st))
        ++ held (snd (loop stops max_tokens fuel m st)) ++ dropped
      /\ (dropped = [] \/ exists s, In s stops /\ occurs_at s 0 dropped).
Proof.
  induction fuel as [|fuel IH]; intros m st.
  { exists []. split; [|left; reflexivity]. cbn. rewrite app_nil_r.
    reflexivity. }
  destruct (sample m) as [token m1] eqn:Hs.
  rewrite (loop_step _ _ _ _ _ _ _ Hs), (decoded_step _ _ _ _ _ _ _ Hs).
  destruct (body_cases stops max_tokens m1 token st)
    as [[Heos Hb] | [(Heos & Hne & start & Hsearch & Hb) | (Heos & _ & Hb)]];
    rewrite Heos.
  - rewrite Hb. exists []. split; [|left; reflexivity].
    unfold emitted. cbn. rewrite !app_nil_r. reflexivity.
  - rewrite Hb. exists (skipn start (text_after m1 token st)). split.
    + unfold emitted. cbn [app map concat fst snd held].
      rewrite !app_nil_r. cbn [app]. rewrite firstn_skipn. reflexivity.
    + right. destruct (search_leftmost _ _ _ Hne Hsearch)
        as [(s & Hin & before & after & Ht & Hlen) _].
      exists s. split; [exact Hin|]. exists [], after.
      split; [|reflexivity]. rewrite Ht, <- Hlen, skipn_length_app.
      reflexivity.
  - cbv zeta in Hb. rewrite Hb.
    pose proof (longest_stop_prefix_length stops (text_after m1 token st))
      as Hlen.
    destruct (emit_spec _ _ Hlen) as (Hcat & _ & _).
    set (e := emit (text_after m1 token st)
                (longest_stop_prefix stops (text_after m1 token st))) in *.
    unfold appended in Hcat.
    destruct (budget_reached max_tokens (count st + 1)).
    + exists []. split; [|left; reflexivity].
      cbn [fst snd held]. rewrite emitted_app. unfold emitted at 2.
      cbn [map concat fst]. rewrite !app_nil_r. symmetry. exact Hcat.
    + match goal with |- context [loop _ _ fuel ?m' ?s'] =>
        destruct (IH m' s') as (dropped & Heq & Hd) end.
      cbn [text] in Heq. exists dropped. split; [|exact Hd].
      cbn [fst snd]. rewrite emitted_app, <- !app_assoc, <- Heq.
      rewrite !app_assoc. f_equal. symmetry. exact Hcat.
Qed.

(** X7.  Only a stop match removes text: the text decoded during a run is
    the text of the chunks yielded, followed by the text still held when the
    generator has not returned, followed by a dropped rest that is empty or
    starts with a stop string. *)
Theorem decoded_text_accounted stops max_tokens tokens m fuel :
  exists dropped,
    decoded stops max_tokens fuel (llm_eval tokens m) initial
    = emitted (fst (generate stops max_tokens tokens m fuel))
      ++ held (snd (generate stops max_tokens tokens m fuel)) ++ dropped
    /\ (dropped = [] \/ exists s, In s stops /\ occurs_at s 0 dropped).
Proof.
  exact (loop_conserves stops max_tokens fuel (llm_eval tokens m) initial).
Qed.

Lemma loop_held_bound stops max_tokens fuel :
  forall m st mk stk,
    (text st = [] \/ exists s, In s stops /\ length (text st) < length s) ->
    snd (loop stops max_tokens fuel m st) = Running mk stk ->
    text stk = [] \/ exists s, In s stops /\ length (text stk) < length s.
Proof.
  induction fuel as [|fuel IH]; intros m st mk stk Hst H.
  - cbn in H. injection H as _ <-. exact Hst.
  - destruct (sample m) as [token m1] eqn:Hs.
    rewrite (loop_step _ _ _ _ _ _ _ Hs) in H.
    destruct (body_cases stops max_tokens m1 token st)
      as [[_ Hb] | [(_ & _ & start & _ & Hb) | (_ & Hnone & Hb)]];
      try (rewrite Hb in H; discriminate).
    cbv zeta in Hb. rewrite Hb in H.
    destruct (budget_reached _ _); [discriminate|]. cbn [snd] in H.
    apply IH in H; [exact H|]. cbn [text].
    pose proof (longest_stop_prefix_length stops (text_after m1 token st))
      as Hlen.
    destruct (emit_spec _ _ Hlen) as (_ & Hkept & _). rewrite Hkept.
    destruct (longest_stop_prefix_spec stops (text_after m1 token st))
      as [_ [H0 | (s & Hin & Hi & He)]].
    + left. apply length_zero_iff_nil. congruence.
    + right. exists s. split; [exact Hin|].
      destruct (Nat.eq_dec (longest_stop_prefix stops (text_after m1 token st))
                  (length s)) as [E|]; [exfalso | lia].
      rewrite E, firstn_all in He. apply endswith_spec in He.
      destruct He as [before He].
      apply (no_match_no_occurrence _ _ Hnone s Hin).
      exists (length before), before, []. rewrite app_nil_r. auto.
Qed.

(** X8.  The text held back at the head of the loop is shorter than some
    stop string, or empty: at most [max(len(stop)) - 1] characters wait for
    the next token. *)
Theorem held_text_bound stops max_tokens tokens m n mk st :
  snd (generate stops max_tokens tokens m n) = Running mk st ->
  text st = [] \/ exists s, In s stops /\ length (text st) < length s.
Proof.
  unfold _generate_text. apply loop_held_bound. left. reflexivity.
Qed.

(** *** The order of the stop strings *)

Lemma partial_match_permutation stops stops' t i :
  Permutation stops stops' ->
  partial_match stops t i -> partial_match stops' t i.
Proof.
  intros HP (s & Hin & H). exists s. split; [|exact H].
  eapply Permutation_in; eauto.
Qed.

Lemma longest_permutation stops stops' t :
  Permutation stops stops' ->
  longest_stop_prefix stops' t = longest_stop_prefix stops t.
Proof.
  intros HP.
  destruct (longest_stop_prefix_spec stops t) as [Hup Hat].
  destruct (longest_stop_prefix_spec stops' t) as [Hup' Hat'].
  apply Nat.le_antisymm.
  - destruct Hat' as [-> | Hat']; [lia|]. apply Hup.
    eapply partial_match_permutation; [apply Permutation_sym|]; eauto.
  - destruct Hat as [-> | Hat]; [lia|]. apply Hup'.
    eapply partial_match_permutation; eauto.
Qed.

Lemma body_permutation stops stops' max_tokens m token st :
  Permutation stops stops' ->
  body stops' max_tokens m token st = body stops max_tokens m token st.
Proof.
  intros HP. unfold loop_body.
  destruct (llm_is_eos_token m token); [reflexivity|].
  destruct (pushed llm_detokenize m token st) as [complete rest].
  rewrite (longest_permutation _ _ _ HP).
  rewrite (search_permutation _ _ _ HP).
  destruct stops as [|s l].
  - apply Permutation_nil in HP. subst. reflexivity.
  - destruct stops' as [|s' l']; [|reflexivity].
    apply Permutation_sym, Permutation_nil in HP. discriminate.
Qed.

(** X9.  The order in which the stop strings are listed does not matter:
    a run with a permutation of the stop list yields the same chunks and
    ends in the same way. *)
Theorem stop_order_irrelevant stops stops' max_tokens tokens m fuel :
  Permutation stops stops' ->
  generate stops' max_tokens tokens m fuel
  = generate stops max_tokens tokens m fuel.
Proof.
  intros HP. unfold _generate_text.
  generalize (llm_eval tokens m) initial.
  induction fuel as [|fuel IH]; intros m0 st; [reflexivity|].
  destruct (sample m0) as [token m1] eqn:Hs.
  rewrite !(loop_step _ _ _ _ _ _ _ Hs), (body_permutation _ _ _ _ _ _ HP).
  destruct (body stops max_tokens m1 token st); [|reflexivity].
  rewrite IH. reflexivity.
Qed.

(** *** The chunks before the last *)

Lemma emit_nonempty (t : str) (longest : nat) :
  Forall (fun c : chunk => fst c <> []) (fst (emit t longest)).
Proof.
  unfold emit.
  destruct (Z.gtb_spec (Z.of_nat (length t) - Z.of_nat longest) 0) as [H|H];
    cbn [fst]; constructor; [|constructor].
  cbn [fst]. destruct t as [|c t]; [cbn in H; lia|].
  destruct (Z.to_nat _) eqn:E; [lia | discriminate].
Qed.

(** X10.  A chunk yielded with finish reason [None] is never empty; only
    the final chunk can carry the empty text. *)
Theorem unfinished_chunks_nonempty stops max_tokens tokens m fuel :
  Forall (fun c : chunk => snd c = None -> fst c <> [])
    (fst (generate stops max_tokens tokens m fuel)).
Proof.
  unfold _generate_text. generalize (llm_eval tokens m) initial.
  induction fuel as [|fuel IH]; intros m0 st; [constructor|].
  destruct (sample m0) as [token m1] eqn:Hs.
  rewrite (loop_step _ _ _ _ _ _ _ Hs).
  destruct (body_cases stops max_tokens m1 token st)
    as [[_ ->] | [(_ & _ & start & _ & ->) | (_ & _ & Hb)]];
    cbn [fst app]; try (repeat constructor; discriminate).
  cbv zeta in Hb. rewrite Hb.
  assert (He : Forall (fun c : chunk => snd c = None -> fst c <> [])
                 (fst (emit (text_after m1 token st)
                         (longest_stop_prefix stops
                            (text_after m1 token st))))).
  { eapply Forall_impl; [|apply emit_nonempty]. auto. }
  destruct (budget_reached _ _); cbn [fst]; apply Forall_app; split;
    try exact He.
  - repeat constructor. discriminate.
  - apply IH.
Qed.

End Session.

(** ** The byte reassembler *)

Lemma split_concat (seq : bytes) :
  fst (_utf8_split_incomplete seq) ++ snd (_utf8_split_incomplete seq) = seq.
Proof. unfold _utf8_split_incomplete. cbn [fst snd]. apply firstn_skipn. Qed.

Lemma reassemble_concat (chunks : list bytes) :
  forall incomplete,
    concat (fst (reassemble incomplete chunks))
    ++ snd (reassemble incomplete chunks)
    = incomplete ++ concat chunks.
Proof.
  induction chunks as [|raw chunks IH]; intros incomplete.
  - cbn. rewrite app_nil_r. reflexivity.
  - cbn [reassemble concat].
    pose proof (split_concat (incomplete ++ raw)) as Hs.
    destruct (_utf8_split_incomplete (incomplete ++ raw))
      as [complete incomplete'].
    specialize (IH incomplete').
    destruct (reassemble incomplete' chunks) as [completes final].
    cbn [fst snd concat] in *.
    rewrite <- app_assoc, IH, app_assoc, Hs, <- app_assoc. reflexivity.
Qed.

(** C3.  Feeding byte chunks one at a time through the split, each chunk
    appended to the bytes left pending by the previous one, gives complete
    parts whose concatenation, followed by the bytes pending at the end, is
    the concatenation of the chunks; the same holds from any pending bytes
    to start with. *)
Theorem reassembly_round_trip (chunks : list bytes) :
  concat (fst (reassemble [] chunks)) ++ snd (reassemble [] chunks)
  = concat chunks
  /\ (forall incomplete,
         concat (fst (reassemble incomplete chunks))
         ++ snd (reassemble incomplete chunks)
         = incomplete ++ concat chunks).
Proof.
  split; [apply (reassemble_concat chunks []) | apply reassemble_concat].
Qed.

Lemma split_index_all (seq : bytes) (i : nat) :
  i <= length seq ->
  Forall (fun b => _utf8_is_continuation_byte b = true) seq ->
  split_index seq i = 0.
Proof.
  intros Hle Hall. induction i as [|i IH]; [reflexivity|].
  cbn [split_index]. rewrite Forall_forall in Hall.
  rewrite (Hall (nth i seq x00)) by (apply nth_In; lia).
  apply IH. lia.
Qed.

(** A buffer of bytes that all have the top bit set is pending as a whole,
    however long it is. *)
Lemma split_all_pending (seq : bytes) :
  Forall (fun b => _utf8_is_continuation_byte b = true) seq ->
  _utf8_split_incomplete seq = ([], seq).
Proof.
  intros Hall. unfold _utf8_split_incomplete.
  rewrite (split_index_all seq (length seq) (Nat.le_refl _) Hall).
  reflexivity.
Qed.

(** C6 (the code departs from the claim).  The model samples one token for
    each of two three-byte characters.  After the second pass six bytes are
    pending, although they are two complete characters; nothing has been
    yielded, and when end-of-sequence follows the run ends with the empty
    text. *)
Theorem pending_bytes_exceed_width :
  Scripted.generate [] None (Scripted.says [Scripted.zhong; Scripted.wen]) 2
  = ([], Running {| Scripted.script := [];
                    Scripted.merges := [Scripted.zhong; Scripted.wen] |}
           {| count := 2; text := [];
              incomplete := Scripted.zhong ++ Scripted.wen |})
  /\ 4 <= length (Scripted.zhong ++ Scripted.wen)
  /\ decode_utf8_ignore (Scripted.zhong ++ Scripted.wen) = [20013%N; 25991%N]
  /\ fst (Scripted.generate [] None
            (Scripted.says [Scripted.zhong; Scripted.wen]) 3)
     = [([], Some Stop)].
Proof.
  split; [reflexivity|]. split; [cbn; lia|]. split; reflexivity.
Qed.

(** ** The properties on the scripted model *)

(** The empty string is a stop string that every text contains: with
    [stops = [""]] the run on the tokens of "hi" ends at the first token
    with the empty final chunk, and the empty stop string occurs in the
    text of its chunks. *)
Lemma empty_stop_string_occurs :
  Scripted.generate [[]] None (Scripted.plays (Scripted.tokens_of "hi")) 1
  = ([([], Some Stop)],
      Returned {| Scripted.script := []; Scripted.merges := [] |})
  /\ exists s,
      In s [[]]
      /\ occurs s
           (emitted
              (fst (Scripted.generate [[]] None
                      (Scripted.plays (Scripted.tokens_of "hi")) 1))).
Proof.
  split; [reflexivity|]. exists []. split; [left; reflexivity|].
  exists 0, [], []. split; reflexivity.
Qed.

Lemma no_stop_leakage_witness :
  Forall (fun s : str => s <> []) [py_str "abc"]
  /\ In (py_str "abc") [py_str "abc"]
  /\ ~ occurs (py_str "abc")
       (emitted
          (fst (Scripted.generate [py_str "abc"] None
                  (Scripted.plays (Scripted.tokens_of "hello abc world"))
                  20))).
Proof.
  assert (Hne : Forall (fun s : str => s <> []) [py_str "abc"])
    by (repeat constructor; discriminate).
  split; [exact Hne|]. split; [left; reflexivity|].
  exact (no_stop_leakage Scripted.model unit Scripted.eval Scripted.sample
           Scripted.is_eos_token Scripted.detokenize Scripted.reset
           decode_utf8_ignore tt tt tt [py_str "abc"] None []
           (Scripted.plays (Scripted.tokens_of "hello abc world")) 20
           Hne (py_str "abc") (or_introl eq_refl)).
Defined.

Lemma partial_match_withholding_witness :
  Scripted.is_eos_token (Scripted.says [list_byte_of_string "xab"]) 257 = false
  /\ [py_str "abc"] <> []
  /\ (forall s, In s [py_str "abc"] ->
        ~ occurs s (appended Scripted.detokenize decode_utf8_ignore
                      (Scripted.says [list_byte_of_string "xab"]) 257 initial))
  /\ exists yielded kept,
      (Scripted.body [py_str "abc"] None
         (Scripted.says [list_byte_of_string "xab"]) 257 initial
       = Break yielded kept Length
       \/ exists st',
           Scripted.body [py_str "abc"] None
             (Scripted.says [list_byte_of_string "xab"]) 257 initial
           = Next yielded st' /\ text st' = kept)
      /\ kept = py_str "ab" /\ emitted yielded = py_str "x".
Proof.
  assert (H1 : Scripted.is_eos_token
                 (Scripted.says [list_byte_of_string "xab"]) 257 = false)
    by reflexivity.
  assert (H2 : [py_str "abc"] <> []) by discriminate.
  assert (H3 : forall s, In s [py_str "abc"] ->
                 ~ occurs s (appended Scripted.detokenize decode_utf8_ignore
                               (Scripted.says [list_byte_of_string "xab"])
                               257 initial)).
  { intros s Hs. eapply (search_from_none [py_str "abc"] _ 0);
      [vm_compute; reflexivity | exact Hs]. }
  split; [exact H1|]. split; [exact H2|]. split; [exact H3|].
  destruct (partial_match_withholding Scripted.model Scripted.is_eos_token
              Scripted.detokenize decode_utf8_ignore [py_str "abc"] None
              (Scripted.says [list_byte_of_string "xab"]) 257 initial
              H1 H2 H3)
    as (yielded & kept & Hb & _ & _ & _ & Hex).
  exists yielded, kept. split; [exact Hb|].
  exact (Hex (py_str "x") eq_refl eq_refl).
Defined.

Lemma full_match_trimming_witness :
  Scripted.is_eos_token
    (Scripted.says [list_byte_of_string "hello abc world"]) 257 = false
  /\ (exists s,
         In s [py_str "abc"]
         /\ occurs s (appended Scripted.detokenize decode_utf8_ignore
                        (Scripted.says [list_byte_of_string "hello abc world"])
                        257 initial))
  /\ exists start,
      Scripted.body [py_str "abc"] None
        (Scripted.says [list_byte_of_string "hello abc world"]) 257 initial
      = Break []
          (firstn start
             (appended Scripted.detokenize decode_utf8_ignore
                (Scripted.says [list_byte_of_string "hello abc world"])
                257 initial))
          Stop
      /\ firstn start
           (appended Scripted.detokenize decode_utf8_ignore
              (Scripted.says [list_byte_of_string "hello abc world"])
              257 initial)
         = py_str "hello ".
Proof.
  assert (H1 : Scripted.is_eos_token
                 (Scripted.says [list_byte_of_string "hello abc world"]) 257
               = false) by reflexivity.
  assert (H2 : exists s,
             In s [py_str "abc"]
             /\ occurs s
                  (appended Scripted.detokenize decode_utf8_ignore
                     (Scripted.says [list_byte_of_string "hello abc world"])
                     257 initial)).
  { exists (py_str "abc"). split; [left; reflexivity|].
    exists 6, (py_str "hello "), (py_str " world"). split; reflexivity. }
  split; [exact H1|]. split; [exact H2|].
  destruct (full_match_trimming Scripted.model unit Scripted.eval
              Scripted.sample Scripted.is_eos_token Scripted.detokenize
              Scripted.reset decode_utf8_ignore tt tt tt [py_str "abc"] None
              (Scripted.says [list_byte_of_string "hello abc world"])
              257 initial H1 H2)
    as (start & _ & Hb & _ & Hex).
  exists start. split; [exact Hb | exact (Hex eq_refl eq_refl)].
Defined.

Lemma leftmost_occurrence_wins_witness :
  Scripted.is_eos_token
    (Scripted.says [list_byte_of_string "a bc abc"]) 257 = false
  /\ (exists s,
         In s [py_str "abc"; py_str "bc"]
         /\ occurs s (appended Scripted.detokenize decode_utf8_ignore
                        (Scripted.says [list_byte_of_string "a bc abc"])
                        257 initial))
  /\ Scripted.body [py_str "abc"; py_str "bc"] None
       (Scripted.says [list_byte_of_string "a bc abc"]) 257 initial
     = Break [] (py_str "a ") Stop
  /\ Scripted.body [py_str "bc"; py_str "abc"] None
       (Scripted.says [list_byte_of_string "a bc abc"]) 257 initial
     = Break [] (py_str "a ") Stop.
Proof.
  assert (H1 : Scripted.is_eos_token
                 (Scripted.says [list_byte_of_string "a bc abc"]) 257
               = false) by reflexivity.
  assert (H2 : exists s,
             In s [py_str "abc"; py_str "bc"]
             /\ occurs s
                  (appended Scripted.detokenize decode_utf8_ignore
                     (Scripted.says [list_byte_of_string "a bc abc"])
                     257 initial)).
  { exists (py_str "abc"). split; [left; reflexivity|].
    exists 5, (py_str "a bc "), []. split; reflexivity. }
  split; [exact H1|]. split; [exact H2|].
  destruct (leftmost_occurrence_wins Scripted.model Scripted.is_eos_token
              Scripted.detokenize decode_utf8_ignore
              [py_str "abc"; py_str "bc"] None
              (Scripted.says [list_byte_of_string "a bc abc"])
              257 initial H1 H2)
    as (start & Hb & _ & Hmin & Hperm).
  assert (Hstart : start = 2).
  { assert (Hle : start <= 2).
    { apply (Hmin (py_str "bc")); [right; left; reflexivity|].
      exists (py_str "a "), (py_str " abc"). split; reflexivity. }
    destruct start as [|[|[|start]]]; [discriminate Hb ..| reflexivity | lia]. }
  subst start. split; [exact Hb|].
  apply Hperm. apply perm_swap.
Defined.

(** A negative [max_tokens] is true as a condition and is reached by the
    count after the first pass: with [max_tokens = -1] the run on the tokens
    of "hi" yields "h" and ends with reason [Length]. *)
Lemma negative_budget_ends_with_length :
  (-1 <= 0)%Z
  /\ Scripted.generate [] (Some (-1)%Z)
       (Scripted.plays (Scripted.tokens_of "hi")) 1
     = ([(py_str "h", None); ([], Some Length)],
         Returned {| Scripted.script := []; Scripted.merges := [] |}).
Proof. split; [lia | reflexivity]. Qed.

Lemma unbounded_token_budget_witness :
  (Some 0%Z = None \/ Some 0%Z = Some 0%Z)
  /\ Forall (fun c : chunk => snd c <> Some Length)
       (fst (Scripted.generate [] (Some 0%Z)
               (Scripted.plays (Scripted.tokens_of "hi")) 5))
  /\ exists init final_text,
      fst (Scripted.generate [] (Some 0%Z)
             (Scripted.plays (Scripted.tokens_of "hi")) 5)
      = init ++ [(final_text, Some Stop)].
Proof.
  assert (H : Some 0%Z = None \/ Some 0%Z = Some 0%Z)
    by (right; reflexivity).
  split; [exact H|].
  destruct (unbounded_token_budget Scripted.model unit Scripted.eval
              Scripted.sample Scripted.is_eos_token Scripted.detokenize
              Scripted.reset decode_utf8_ignore tt tt tt [] (Some 0%Z) []
              (Scripted.plays (Scripted.tokens_of "hi")) 5 H)
    as [Hno Hstop].
  split; [exact Hno|].
  exact (Hstop {| Scripted.script := []; Scripted.merges := [] |} eq_refl).
Defined.

Lemma finish_reason_structure_witness :
  Scripted.generate [py_str "abc"] (Some 4%Z)
    (Scripted.plays (Scripted.tokens_of "hello abc world")) 9
  = ([(py_str "h", None); (py_str "e", None); (py_str "l", None);
      (py_str "l", None); ([], Some Length)],
      Returned {| Scripted.script := []; Scripted.merges := [] |})
  /\ exists init final_text reason,
      [(py_str "h", None); (py_str "e", None); (py_str "l", None);
       (py_str "l", None); ([], Some Length)]
      = init ++ [(final_text, Some reason)]
      /\ Forall (fun c : chunk => snd c = None) init
      /\ (reason = Stop \/ reason = Length).
Proof.
  assert (H : Scripted.generate [py_str "abc"] (Some 4%Z)
                (Scripted.plays (Scripted.tokens_of "hello abc world")) 9
              = ([(py_str "h", None); (py_str "e", None); (py_str "l", None);
                  (py_str "l", None); ([], Some Length)],
                  Returned {| Scripted.script := [];
                              Scripted.merges := [] |}))
    by reflexivity.
  split; [exact H|].
  exact (proj1 (finish_reason_structure Scripted.model unit Scripted.eval
                  Scripted.sample Scripted.is_eos_token Scripted.detokenize
                  Scripted.reset decode_utf8_ignore tt tt tt [py_str "abc"]
                  (Some 4%Z) []
                  (Scripted.plays (Scripted.tokens_of "hello abc world")) 9
                  _ _ H)).
Defined.

Lemma immediate_end_of_sequence_witness :
  Scripted.sample tt tt tt (Scripted.eval [] (Scripted.plays []))
  = (0%Z, Scripted.plays [])
  /\ Scripted.is_eos_token (Scripted.plays []) 0 = true
  /\ Scripted.generate [py_str "abc"] None (Scripted.plays []) 1
     = ([([], Some Stop)], Returned (Scripted.reset (Scripted.plays []))).
Proof.
  split; [reflexivity|]. split; [reflexivity|].
  exact (immediate_end_of_sequence Scripted.model unit Scripted.eval
           Scripted.sample Scripted.is_eos_token Scripted.detokenize
           Scripted.reset decode_utf8_ignore tt tt tt [py_str "abc"] None []
           (Scripted.plays []) 0 0%Z (Scripted.plays []) eq_refl eq_refl).
Defined.

Lemma empty_stop_set_identity_witness :
  snd (Scripted.generate [] None (Scripted.plays (Scripted.tokens_of "hi")) 1)
  = Running (Scripted.plays (Scripted.tokens_of "i"))
      {| count := 1; text := []; incomplete := [] |}
  /\ Scripted.sample tt tt tt (Scripted.plays (Scripted.tokens_of "i"))
     = (106%Z, Scripted.plays [])
  /\ Scripted.is_eos_token (Scripted.plays []) 106 = false
  /\ Scripted.body [] None (Scripted.plays []) 106
       {| count := 1; text := []; incomplete := [] |}
     = Next [(py_str "i", None)] {| count := 2; text := []; incomplete := [] |}.
Proof.
  split; [reflexivity|]. split; [reflexivity|]. split; [reflexivity|].
  destruct (empty_stop_set_identity Scripted.model unit Scripted.eval
              Scripted.sample Scripted.is_eos_token Scripted.detokenize
              Scripted.reset decode_utf8_ignore tt tt tt None []
              (Scripted.plays (Scripted.tokens_of "hi")) 1
              (Scripted.plays (Scripted.tokens_of "i"))
              {| count := 1; text := []; incomplete := [] |}
              106%Z (Scripted.plays []) eq_refl eq_refl eq_refl)
    as (_ & _ & yielded & -> & _ & [Hb | [Hb Hbudget]]).
  - exact Hb.
  - discriminate Hbudget.
Defined.

(** ** Further properties on the scripted model *)

Lemma split_incomplete_unique_witness :
  ends_complete [x41]
  /\ Forall top_bit_set Scripted.zhong
  /\ _utf8_split_incomplete ([x41] ++ Scripted.zhong)
     = ([x41], Scripted.zhong).
Proof.
  assert (H1 : ends_complete [x41])
    by (right; exists [], x41; split; reflexivity).
  assert (H2 : Forall top_bit_set Scripted.zhong)
    by (repeat constructor).
  split; [exact H1|]. split; [exact H2|].
  exact (split_incomplete_unique [x41] Scripted.zhong H1 H2).
Defined.

Lemma split_ascii_end_witness :
  (Byte.to_N x41 < 128)%N
  /\ _utf8_split_incomplete (Scripted.zhong ++ [x41])
     = (Scripted.zhong ++ [x41], []).
Proof.
  assert (H : (Byte.to_N x41 < 128)%N) by reflexivity.
  split; [exact H | exact (split_ascii_end Scripted.zhong x41 H)].
Defined.

Lemma session_counters_witness :
  snd (Scripted.generate [] None
         (Scripted.says [Scripted.zhong; Scripted.wen]) 2)
  = Running {| Scripted.script := [];
               Scripted.merges := [Scripted.zhong; Scripted.wen] |}
      {| count := 2; text := [];
         incomplete := Scripted.zhong ++ Scripted.wen |}
  /\ count {| count := 2; text := [];
              incomplete := Scripted.zhong ++ Scripted.wen |} = Z.of_nat 2
  /\ Forall top_bit_set (Scripted.zhong ++ Scripted.wen).
Proof.
  split; [reflexivity|].
  exact (session_counters Scripted.model unit Scripted.eval Scripted.sample
           Scripted.is_eos_token Scripted.detokenize Scripted.reset
           decode_utf8_ignore tt tt tt [] None []
           (Scripted.says [Scripted.zhong; Scripted.wen]) 2 _ _ eq_refl).
Defined.

Lemma positive_budget_terminates_witness :
  (0 < 2)%Z
  /\ exists chunks m',
      Scripted.generate [py_str "abc"] (Some 2%Z)
        (Scripted.plays (Scripted.tokens_of "hello")) (Z.to_nat 2)
      = (chunks, Returned m')
      /\ length chunks <= Z.to_nat 2 + 1.
Proof.
  assert (H : (0 < 2)%Z) by reflexivity.
  split; [exact H|].
  exact (positive_budget_terminates Scripted.model unit Scripted.eval
           Scripted.sample Scripted.is_eos_token Scripted.detokenize
           Scripted.reset decode_utf8_ignore tt tt tt [py_str "abc"] 2%Z []
           (Scripted.plays (Scripted.tokens_of "hello")) H).
Defined.

Lemma negative_budget_single_pass_witness :
  (-1 < 0)%Z
  /\ exists chunks m',
      Scripted.generate [py_str "abc"] (Some (-1)%Z)
        (Scripted.plays (Scripted.tokens_of "hello")) 1
      = (chunks, Returned m').
Proof.
  assert (H : (-1 < 0)%Z) by reflexivity.
  split; [exact H|].
  exact (negative_budget_single_pass Scripted.model unit Scripted.eval
           Scripted.sample Scripted.is_eos_token Scripted.detokenize
           Scripted.reset decode_utf8_ignore tt tt tt [py_str "abc"] (-1)%Z []
           (Scripted.plays (Scripted.tokens_of "hello")) H).
Defined.

Lemma held_text_bound_witness :
  snd (Scripted.generate [py_str "abc"] None
         (Scripted.plays (Scripted.tokens_of "xab")) 3)
  = Running (Scripted.plays [])
      {| count := 3; text := py_str "ab"; incomplete := [] |}
  /\ (py_str "ab" = []
      \/ exists s, In s [py_str "abc"] /\ length (py_str "ab") < length s).
Proof.
  split; [reflexivity|].
  exact (held_text_bound Scripted.model unit Scripted.eval Scripted.sample
           Scripted.is_eos_token Scripted.detokenize Scripted.reset
           decode_utf8_ignore tt tt tt [py_str "abc"] None []
           (Scripted.plays (Scripted.tokens_of "xab")) 3 _ _ eq_refl).
Defined.

Lemma stop_order_irrelevant_witness :
  Permutation [py_str "abc"; py_str "bc"] [py_str "bc"; py_str "abc"]
  /\ Scripted.generate [py_str "bc"; py_str "abc"] None
       (Scripted.plays (Scripted.tokens_of "a bc abc")) 9
     = Scripted.generate [py_str "abc"; py_str "bc"] None
         (Scripted.plays (Scripted.tokens_of "a bc abc")) 9.
Proof.
  assert (H : Permutation [py_str "abc"; py_str "bc"]
                [py_str "bc"; py_str "abc"]) by apply perm_swap.
  split; [exact H|].
  exact (stop_order_irrelevant Scripted.model unit Scripted.eval
           Scripted.sample Scripted.is_eos_token Scripted.detokenize
           Scripted.reset decode_utf8_ignore tt tt tt
           [py_str "abc"; py_str "bc"] [py_str "bc"; py_str "abc"] None []
           (Scripted.plays (Scripted.tokens_of "a bc abc")) 9 H).
Defined.
